(** * Cloud-silhouette noise pipeline (tests/noise_test/clouds_bw.py)

    A shallow embedding of [fade], [lerp], [perlin2d], [fbm] and of the
    padding and threshold stages of [main].

    Numbers.  A Python float and a numpy float64 or float32 element is modelled
    by the rational it denotes; every arithmetic operation is the exact
    operation followed by the rounding of its result type ([r64], [r32]).
    The two roundings, the library functions [np.cos] and [np.sin] and the
    stream of [np.random.default_rng] are parameters of the model (class
    [NumPy]); what a theorem needs of them is a hypothesis of that theorem.
    [ieee_np] instantiates the roundings with round-to-nearest-even in
    binary64 and binary32, [exact_np] with the identity.  A rounding has no
    largest number; where [fbm] brings an amplitude or a sum into an array,
    the model compares it with the largest finite number of the type, and a
    run in which that is exceeded (the program goes on with inf and NaN in
    its arrays) has the outcome [NonFinite], which the model follows no
    further.  Signed zeros are outside the model, and numpy's division of an
    array by zero is read as Q's (x / 0 = 0).

    Arrays.  A 2-D array is a list of rows.  A whole-array expression of the
    source is evaluated pixel by pixel; reductions ([min], [max]) run over
    the whole array as in the source.

    Errors.  A raised exception is a value [Err e] of the result type, and
    the code after the raising statement does not run.  [NonFinite] is no
    exception: the program raises nothing and returns an array. *)

From Stdlib Require Import ZArith QArith Qround Qminmax Qabs Qpower.
From Stdlib Require Import String List Bool Lia Lqa Morphisms Setoid.
Import ListNotations.

Open Scope Q_scope.

(** ** Exceptions and the error monad *)

Inductive exn : Type :=
| ValueError (msg : string)
| ZeroDivisionError
| IndexError.

Inductive result (A : Type) : Type :=
| Ok (a : A)
| Err (e : exn)
| NonFinite.

Arguments Ok {A} a.
Arguments Err {A} e.
Arguments NonFinite {A}.

Definition bind {A B : Type} (m : result A) (k : A -> result B) : result B :=
  match m with
  | Ok a => k a
  | Err e => Err e
  | NonFinite => NonFinite
  end.

Notation "x <- m ;; k" := (bind m (fun x => k))
  (at level 61, m at next level, right associativity).
Notation "' p <- m ;; k" := (bind m (fun x => let p := x in k))
  (at level 61, p pattern, m at next level, right associativity).

(** [mapM f l]: evaluate [f] on every element, left to right, stopping at
    the first exception. *)
Fixpoint mapM {A B : Type} (f : A -> result B) (l : list A) : result (list B) :=
  match l with
  | [] => Ok []
  | a :: l' => b <- f a ;; bs <- mapM f l' ;; Ok (b :: bs)
  end.

(** [foldM f l s]: a [for] loop over [l] threading the state [s]. *)
Fixpoint foldM {A S : Type} (f : S -> A -> result S) (l : list A) (s : S) : result S :=
  match l with
  | [] => Ok s
  | a :: l' => s' <- f s a ;; foldM f l' s'
  end.

(** Python's [range(n)]: empty when [n <= 0]. *)
Definition range (n : Z) : list Z := map Z.of_nat (seq 0 (Z.to_nat n)).

(** ** The numeric environment *)

Class NumPy : Type := {
  (** rounding to the nearest binary64, resp. binary32, number *)
  r64 : Q -> Q;
  r32 : Q -> Q;
  (** [np.cos], [np.sin] on float64 *)
  np_cos : Q -> Q;
  np_sin : Q -> Q;
  (** [rng_uniform seed rows cols j i]: element [j, i] of
      [np.random.default_rng(seed).uniform(0.0, 2.0 * math.pi, size=(rows, cols))] *)
  rng_uniform : Z -> Z -> Z -> Z -> Z -> Q
}.

Definition field : Type := list (list Q).

(** The largest finite binary32 and binary64 numbers, and whether a rounded
    number is within them; beyond them the float is inf. *)
Definition max32 : Q := inject_Z ((2 ^ 24 - 1) * 2 ^ 104).
Definition max64 : Q := inject_Z ((2 ^ 53 - 1) * 2 ^ 971).

Definition finite32 (x : Q) : bool := Qle_bool (Qabs x) max32.
Definition finite64 (x : Q) : bool := Qle_bool (Qabs x) max64.

(** The run goes on as modelled only if [b] holds. *)
Definition check (b : bool) : result unit := if b then Ok tt else NonFinite.

(** Element [j, c] of a 2-D array. *)
Definition px (f : field) (j c : nat) : Q := nth c (nth j f []) 0.

(** Every row of [f] has [w] elements and there are [h] rows. *)
Definition shape_is (f : field) (h w : nat) : Prop :=
  length f = h /\ Forall (fun row => length row = w) f.

Definition all_px (P : Q -> Prop) (f : field) : Prop := Forall (Forall P) f.

Definition map2d {A B : Type} (g : A -> B) (a : list (list A)) : list (list B) :=
  map (map g) a.

Fixpoint zip_with {A B C : Type} (g : A -> B -> C) (a : list A) (b : list B) : list C :=
  match a, b with
  | x :: a', y :: b' => g x y :: zip_with g a' b'
  | _, _ => []
  end.

Definition zip_with2d {A B C : Type} (g : A -> B -> C)
  (a : list (list A)) (b : list (list B)) : list (list C) :=
  zip_with (zip_with g) a b.

Section Model.

Context {np : NumPy}.

(** float64 arithmetic: the exact result, rounded. *)
Definition add64 (x y : Q) : Q := r64 (x + y).
Definition sub64 (x y : Q) : Q := r64 (x - y).
Definition mul64 (x y : Q) : Q := r64 (x * y).
Definition div64 (x y : Q) : Q := r64 (x / y).

(** float32 arithmetic. *)
Definition add32 (x y : Q) : Q := r32 (x + y).
Definition mul32 (x y : Q) : Q := r32 (x * y).
Definition div32 (x y : Q) : Q := r32 (x / y).

Declare Scope f64_scope.
Delimit Scope f64_scope with f64.
Arguments add64 (x y)%_f64.
Arguments sub64 (x y)%_f64.
Arguments mul64 (x y)%_f64.
Arguments div64 (x y)%_f64.
Infix "+" := add64 : f64_scope.
Infix "-" := sub64 : f64_scope.
Infix "*" := mul64 : f64_scope.
Infix "/" := div64 : f64_scope.

(** The literal [1e-12] as a Python float. *)
Definition eps64 : Q := r64 (1 # 1000000000000).

(** [a / b] on Python floats raises on a zero divisor. *)
Definition py_div (a b : Q) : result Q :=
  if Qeq_bool b 0 then Err ZeroDivisionError else Ok (a / b)%f64.

(** Python's [round(x)] of a float: the nearest integer, ties to even. *)
Definition py_round (x : Q) : Z :=
  let f := Qfloor x in
  match Qcompare (x - inject_Z f) (1 # 2) with
  | Lt => f
  | Gt => (f + 1)%Z
  | Eq => if Z.even f then f else (f + 1)%Z
  end.

(** ** fade, lerp *)

(** [t * t * t * (t * (t * 6 - 15) + 10)] *)
Definition fade (t : Q) : Q := (t * t * t * (t * (t * 6 - 15) + 10))%f64.

(** [a + t * (b - a)] *)
Definition lerp (a b t : Q) : Q := (a + t * (b - a))%f64.

(** ** numpy helpers used by perlin2d *)

(** [np.linspace(0, stop, num, endpoint=False)]: [num] samples [i * step],
    [step = stop / num]; a negative [num] raises. *)
Definition linspace (stop : Q) (num : Z) : result (list Q) :=
  if (num <? 0)%Z then Err (ValueError "Number of samples must be non-negative")
  else
    let step := (stop / inject_Z num)%f64 in
    Ok (map (fun i => (inject_Z i * step + 0)%f64) (range num)).

(** [np.meshgrid(xs, ys)]: row [j] holds the pairs [(xs[i], ys[j])]. *)
Definition meshgrid (xs ys : list Q) : list (list (Q * Q)) :=
  map (fun y => map (fun x => (x, y)) xs) ys.

(** [a.min()], [a.max()]: a reduction over all elements; an empty array
    raises. *)
Definition reduce {A : Type} (op : A -> A -> A) (what : string) (l : list A) : result A :=
  match l with
  | [] => Err (ValueError ("zero-size array to reduction operation " ++ what)%string)
  | a :: l' => Ok (fold_left op l' a)
  end.

Definition zmin (l : list Z) : result Z := reduce Z.min "minimum" l.
Definition zmax (l : list Z) : result Z := reduce Z.max "maximum" l.
Definition qmin (l : list Q) : result Q := reduce Qmin "minimum" l.
Definition qmax (l : list Q) : result Q := reduce Qmax "maximum" l.

(** An integer index [i] into an axis of length [n]: a negative index counts
    from the end, anything outside [-n, n) raises. *)
Definition np_index (n i : Z) : result Z :=
  if ((0 <=? i) && (i <? n))%Z then Ok i
  else if ((- n <=? i) && (i <? 0))%Z then Ok (i + n)%Z
  else Err IndexError.

(** [np.random.default_rng(seed)] refuses a negative seed. *)
Definition default_rng (seed : Z) : result Z :=
  if (seed <? 0)%Z then Err (ValueError "expected non-negative integer") else Ok seed.

(** [grads[gj, gi]] where
    [angles = rng.uniform(0.0, 2.0 * math.pi, size=(grid_h, grid_w))] and
    [grads = np.dstack((np.cos(angles), np.sin(angles)))]. *)
Definition grads (rng grid_h grid_w : Z) (gj gi : Z) : result (Q * Q) :=
  j <- np_index grid_h gj ;;
  i <- np_index grid_w gi ;;
  let a := rng_uniform rng grid_h grid_w j i in
  Ok (np_cos a, np_sin a).

(** ** perlin2d *)

(** The lattice of one call: its size and the lookup [grad_at]. *)
Record lattice : Type := {
  grid_w : Z;
  grid_h : Z;
  grad_at : Z -> Z -> result (Q * Q)
}.

(** The cell count of one axis in tileable mode:
    [max(1, int(round(dimension / scale)))]. *)
Definition tile_cells (dimension : Z) (scale : Q) : result Z :=
  q <- py_div (inject_Z dimension) scale ;;
  Ok (Z.max 1 (py_round q)).

(** [grad_at] of the tileable branch: indices wrap modulo the cell counts. *)
Definition grad_at_tileable (rng gw gh : Z) (ix iy : Z) : result (Q * Q) :=
  let gi := (ix mod gw)%Z in
  let gj := (iy mod gh)%Z in
  grads rng gh gw gj gi.

(** [grad_at] of the other branch: indices are translated by the minima. *)
Definition grad_at_bbox (rng gw gh gx_min gy_min : Z) (ix iy : Z) : result (Q * Q) :=
  let gi := (ix - gx_min)%Z in
  let gj := (iy - gy_min)%Z in
  grads rng gh gw gj gi.

(** [x0 = np.floor(x).astype(int)], [x1 = x0 + 1] over the whole grid. *)
Definition x0_of (grid : list (list (Q * Q))) : list Z :=
  map (fun p => Qfloor (fst p)) (concat grid).
Definition y0_of (grid : list (list (Q * Q))) : list Z :=
  map (fun p => Qfloor (snd p)) (concat grid).
Definition x1_of (grid : list (list (Q * Q))) : list Z := map (fun v => (v + 1)%Z) (x0_of grid).
Definition y1_of (grid : list (list (Q * Q))) : list Z := map (fun v => (v + 1)%Z) (y0_of grid).

(** The bounding box of the sampled cells: [(gx_min, gx_max, gy_min, gy_max)]. *)
Definition bbox (grid : list (list (Q * Q))) : result (Z * Z * Z * Z) :=
  gx_min <- zmin (x0_of grid) ;;
  gx_max <- zmax (x1_of grid) ;;
  gy_min <- zmin (y0_of grid) ;;
  gy_max <- zmax (y1_of grid) ;;
  Ok (gx_min, gx_max, gy_min, gy_max).

(** The four lattice corners of the sample point [(x, y)]. *)
Definition corners (p : Q * Q) : list (Z * Z) :=
  let x0 := Qfloor (fst p) in
  let y0 := Qfloor (snd p) in
  let x1 := (x0 + 1)%Z in
  let y1 := (y0 + 1)%Z in
  [(x0, y0); (x1, y0); (x0, y1); (x1, y1)].

(** The value of one pixel before normalisation (source lines 100-123). *)
Definition noise_at (grad : Z -> Z -> result (Q * Q)) (p : Q * Q) : result Q :=
  let '(x, y) := p in
  let x0 := Qfloor x in
  let y0 := Qfloor y in
  let x1 := (x0 + 1)%Z in
  let y1 := (y0 + 1)%Z in
  let sx := (x - inject_Z x0)%f64 in
  let sy := (y - inject_Z y0)%f64 in
  ' (g00x, g00y) <- grad x0 y0 ;;
  ' (g10x, g10y) <- grad x1 y0 ;;
  ' (g01x, g01y) <- grad x0 y1 ;;
  ' (g11x, g11y) <- grad x1 y1 ;;
  let dx0 := sx in
  let dy0 := sy in
  let dx1 := (sx - 1)%f64 in
  let dy1 := (sy - 1)%f64 in
  let n00 := (g00x * dx0 + g00y * dy0)%f64 in
  let n10 := (g10x * dx1 + g10y * dy0)%f64 in
  let n01 := (g01x * dx0 + g01y * dy1)%f64 in
  let n11 := (g11x * dx1 + g11y * dy1)%f64 in
  let u := fade sx in
  let v := fade sy in
  let nx0 := lerp n00 n10 u in
  let nx1 := lerp n01 n11 u in
  Ok (lerp nx0 nx1 v).

(** [(nxy - nxy.min()) / (nxy.max() - nxy.min() + 1e-12)], then
    [astype(np.float32)]. *)
Definition normalize (raw : field) : result field :=
  mn <- qmin (concat raw) ;;
  mx <- qmax (concat raw) ;;
  Ok (map2d (fun v => r32 ((v - mn) / (mx - mn + eps64))%f64) raw).

(** The tileable branch (lines 40-67): the sample grid and the lattice. *)
Definition lattice_tileable (rng width height : Z) (scale : Q)
  : result (list (list (Q * Q)) * lattice) :=
  gw <- tile_cells width scale ;;
  gh <- tile_cells height scale ;;
  xs <- linspace (inject_Z gw) width ;;
  ys <- linspace (inject_Z gh) height ;;
  Ok (meshgrid xs ys,
      {| grid_w := gw; grid_h := gh; grad_at := grad_at_tileable rng gw gh |}).

(** The other branch (lines 69-98). *)
Definition lattice_bbox (rng width height : Z) (scale : Q)
  : result (list (list (Q * Q)) * lattice) :=
  xstop <- py_div (inject_Z width) scale ;;
  xs <- linspace xstop width ;;
  ystop <- py_div (inject_Z height) scale ;;
  ys <- linspace ystop height ;;
  let grid := meshgrid xs ys in
  ' (gx_min, gx_max, gy_min, gy_max) <- bbox grid ;;
  let gw := (gx_max - gx_min + 1)%Z in
  let gh := (gy_max - gy_min + 1)%Z in
  Ok (grid,
      {| grid_w := gw; grid_h := gh; grad_at := grad_at_bbox rng gw gh gx_min gy_min |}).

Definition perlin2d (width height : Z) (scale : Q) (seed : Z) (tileable : bool)
  : result field :=
  if Qle_bool scale 0 then Err (ValueError "scale must be > 0")
  else
    rng <- default_rng seed ;;
    ' (grid, lat) <-
      (if tileable then lattice_tileable rng width height scale
       else lattice_bbox rng width height scale) ;;
    raw <- mapM (mapM (noise_at (grad_at lat))) grid ;;
    normalize raw.

(** ** fbm *)

(** [np.zeros((height, width), dtype=np.float32)]: a negative dimension
    raises. *)
Definition np_zeros (height width : Z) : result field :=
  if ((height <? 0) || (width <? 0))%Z
  then Err (ValueError "negative dimensions are not allowed")
  else Ok (repeat (repeat 0 (Z.to_nat width)) (Z.to_nat height)).

(** [np.clip(a, 0.0, 1.0)] on one element. *)
Definition clip01 (v : Q) : Q := Qmin (Qmax v 0) 1.

(** The variables the loop of [fbm] updates. *)
Record fbm_state : Type := {
  total : field;
  amp : Q;
  amp_sum : Q;
  scale : Q
}.

(** One pass of the loop body, for the octave index [i].  [n * amp]
    multiplies a float32 array by a Python float: numpy brings the scalar to
    the array's type and multiplies in float32.  The pass is followed only
    while the amplitude as a float32, the pixels of [total] and [amp_sum]
    are finite (the pixels of [n] are in [0, 1], so a product is never
    larger than the amplitude). *)
Definition fbm_step (width height : Z) (lacunarity gain : Q) (seed : Z) (tileable : bool)
  (st : fbm_state) (i : Z) : result fbm_state :=
  n <- perlin2d width height (scale st) (seed + 1013 * i)%Z tileable ;;
  let amp32 := r32 (amp st) in
  _ <- check (finite32 amp32) ;;
  let total' := zip_with2d add32 (total st) (map2d (fun v => mul32 v amp32) n) in
  _ <- check (forallb (forallb finite32) total') ;;
  let amp_sum' := (amp_sum st + amp st)%f64 in
  _ <- check (finite64 amp_sum') ;;
  let amp' := (amp st * gain)%f64 in
  scale' <- py_div (scale st) lacunarity ;;
  Ok {| total := total'; amp := amp'; amp_sum := amp_sum'; scale := scale' |}.

(** The state the loop of [fbm] ends in. *)
Definition fbm_loop (width height : Z) (base_scale : Q) (octaves : Z)
  (lacunarity gain : Q) (seed : Z) (tileable : bool) : result fbm_state :=
  total0 <- np_zeros height width ;;
  foldM (fbm_step width height lacunarity gain seed tileable) (range octaves)
    {| total := total0; amp := 1; amp_sum := 0; scale := base_scale |}.

(** The number [total] is divided by: [amp_sum + 1e-12], brought to the
    array's float32 type. *)
Definition fbm_divisor (st : fbm_state) : Q := r32 (amp_sum st + eps64)%f64.

Definition fbm (width height : Z) (base_scale : Q) (octaves : Z)
  (lacunarity gain : Q) (seed : Z) (tileable : bool) : result field :=
  st <- fbm_loop width height base_scale octaves lacunarity gain seed tileable ;;
  _ <- check (finite32 (fbm_divisor st)) ;;
  let total1 := map2d (fun t => div32 t (fbm_divisor st)) (total st) in
  Ok (map2d clip01 total1).

(** The quantities of the description of fbm, in the arithmetic of the
    program: the scale of octave [k] is [base_scale] divided [k] times by
    the lacunarity, its amplitude 1 multiplied [k] times by the gain, both
    in float64; [amp_total k] is the float64 sum of the first [k]
    amplitudes; and [weighted_sum ns gain k] the float32 sum of the first
    [k] of the values [ns i], each weighted by its amplitude brought to
    float32. *)
Fixpoint octave_scale (base_scale lacunarity : Q) (k : nat) : Q :=
  match k with
  | O => base_scale
  | S k' => (octave_scale base_scale lacunarity k' / lacunarity)%f64
  end.

Fixpoint octave_amp (gain : Q) (k : nat) : Q :=
  match k with
  | O => 1
  | S k' => (octave_amp gain k' * gain)%f64
  end.

Fixpoint amp_total (gain : Q) (k : nat) : Q :=
  match k with
  | O => 0
  | S k' => (amp_total gain k' + octave_amp gain k')%f64
  end.

Fixpoint weighted_sum (ns : nat -> Q) (gain : Q) (k : nat) : Q :=
  match k with
  | O => 0
  | S k' => add32 (weighted_sum ns gain k') (mul32 (ns k') (r32 (octave_amp gain k')))
  end.

(** ** The padding and threshold stages of main *)

(** One axis of the falloff mask for an axis of [n] pixels (lines 199-211):
    [fade(np.minimum(np.clip(x / padding, 0, 1),
                     np.clip((n - 1 - x) / padding, 0, 1)))]. *)
Definition ramp (n padding : Z) (x : Z) : Q :=
  let near := clip01 (inject_Z x / inject_Z padding)%f64 in
  let far := clip01 (inject_Z (n - 1 - x) / inject_Z padding)%f64 in
  fade (Qmin near far).

Definition mask_axis (n padding : Z) : list Q := map (ramp n padding) (range n).

(** [np.outer(mask_y, mask_x).astype(np.float32)] *)
Definition outer32 (my mx : list Q) : field :=
  map (fun a => map (fun b => r32 (a * b)%f64) mx) my.

Definition falloff_mask (h w padding : Z) : field :=
  outer32 (mask_axis h padding) (mask_axis w padding).

(** Lines 196-214: [h, w = n.shape], [n = n * mask] when [padding > 0]. *)
Definition padding_stage (n : field) (padding : Z) : field :=
  if (padding >? 0)%Z then
    let h := Z.of_nat (length n) in
    let w := Z.of_nat (length (hd [] n)) in
    zip_with2d mul32 n (falloff_mask h w padding)
  else n.

(** Line 217: [(n > threshold).astype(np.uint8) * 255].  [n] is a float32
    array and [threshold] a Python float: numpy brings the scalar to the
    array's type, and compares in float32. *)
Definition threshold_px (threshold v : Q) : Z :=
  ((if Qlt_le_dec (r32 threshold) v then 1 else 0) * 255 mod 256)%Z.

Definition threshold_stage (n : field) (threshold : Q) : list (list Z) :=
  map2d (threshold_px threshold) n.

(** The number of pixels of a binary field that are on. *)
Definition count_on (bw : list (list Z)) : nat :=
  length (filter (Z.eqb 255) (concat bw)).

End Model.

(** ** What a theorem may assume of the roundings *)

(** A rounding to a number format: it respects equality of rationals, is
    monotone, leaves the format's numbers alone, and the integers up to
    2^24 belong to the format. *)
Record rounding (r : Q -> Q) : Prop := {
  rnd_compat : forall x y, x == y -> r x == r y;
  rnd_mono : forall x y, x <= y -> r x <= r y;
  rnd_idem : forall x, r (r x) == r x;
  rnd_int : forall z : Z, (Z.abs z <= 16777216)%Z -> r (inject_Z z) == inject_Z z
}.

(** Both roundings of the environment are roundings in that sense, and the
    literal 1e-12 does not round to 0. *)
Class IEEE (np : NumPy) : Prop := {
  r64_rounding : rounding r64;
  r32_rounding : rounding r32;
  eps64_pos : 0 < eps64
}.

(** Arithmetic without rounding error. *)
Definition exact (r : Q -> Q) : Prop := forall x, r x == x.

(** ** Concrete environments, to run the model *)

Definition pow2 (e : Z) : Q := 2 ^ e.

(** The exponent [e] with [2^(e-1) <= |x| < 2^e], for [x] other than 0. *)
Definition mag (x : Q) : Z :=
  let e0 := (Z.log2 (Z.abs (Qnum x)) - Z.log2 (Zpos (Qden x)))%Z in
  if Qlt_le_dec (Qabs x) (pow2 e0) then e0 else (e0 + 1)%Z.

(** The exponent of the last digit kept. *)
Definition cexp (p emin : Z) (x : Q) : Z := Z.max (mag x - p) emin.

(** Round to nearest, ties to even, in the binary format with [p] digits
    whose least exponent is [emin]; no overflow. *)
Definition round_binary (p emin : Z) (x : Q) : Q :=
  inject_Z (py_round (x * pow2 (- cexp p emin x))) * pow2 (cexp p emin x).

Definition binary32 : Q -> Q := round_binary 24 (-149).
Definition binary64 : Q -> Q := round_binary 53 (-1074).

(** A stand-in for the generator's stream: angles in [0, 6.283). *)
Definition demo_uniform (seed rows cols j i : Z) : Q :=
  inject_Z ((seed * 7919 + j * 104729 + i * 1299709 + rows * 31 + cols) mod 6283) / 1000.

(** Stand-ins for cos and sin: the unit vector with half-angle tangent
    [a - 3]. *)
Definition demo_cos (a : Q) : Q := let t := a - 3 in (1 - t * t) / (1 + t * t).
Definition demo_sin (a : Q) : Q := let t := a - 3 in (2 * t) / (1 + t * t).

(** Exact arithmetic. *)
Definition exact_np : NumPy :=
  {| r64 := fun x => x; r32 := fun x => x;
     np_cos := demo_cos; np_sin := demo_sin; rng_uniform := demo_uniform |}.

(** IEEE arithmetic: binary64 and binary32 roundings, and the stand-ins
    rounded to binary64. *)
Definition ieee_np : NumPy :=
  {| r64 := binary64; r32 := binary32;
     np_cos := fun a => binary64 (demo_cos a);
     np_sin := fun a => binary64 (demo_sin a);
     rng_uniform := fun seed rows cols j i => binary64 (demo_uniform seed rows cols j i) |}.

(** ** Vocabulary of the statements *)

(** A value in [0, 1]. *)
Definition in01 (v : Q) : Prop := 0 <= v <= 1.

(** Two fields with equal pixels; two outcomes that are the same exception
    or fields with equal pixels. *)
Definition field_eq (f g : field) : Prop := Forall2 (Forall2 Qeq) f g.

Definition outcome_eq (a b : result field) : Prop :=
  match a, b with
  | Ok f, Ok g => field_eq f g
  | Err e, Err e' => e = e'
  | NonFinite, NonFinite => True
  | _, _ => False
  end.


Fixpoint qsum (g : nat -> Q) (n : nat) : Q :=
  match n with
  | O => 0
  | S n' => qsum g n' + g n'
  end.

(** ** More of main: the byte conversions of the smooth stage, inversion *)

Section Stages.

Context {np : NumPy}.

(** The integer part of a float (conversion to an integer type). *)
Definition Qtrunc (v : Q) : Z := if Qlt_le_dec v 0 then Qceiling v else Qfloor v.

(** Line 191, one pixel of [(n * 255).astype(np.uint8)]: the float32 product,
    cut to its integer part.  numpy defines the conversion only for a value
    whose integer part is a byte. *)
Definition to_byte (v : Q) : option Z :=
  let q := Qtrunc (mul32 v (r32 255)) in
  if ((0 <=? q) && (q <=? 255))%Z then Some q else None.

(** Line 193, one pixel of [np.array(n_img).astype(np.float32) / 255.0]. *)
Definition from_byte (b : Z) : Q := div32 (r32 (inject_Z b)) (r32 255).

(** Lines 219-220: [bw = 255 - bw] on a uint8 array. *)
Definition invert_px (b : Z) : Z := ((255 - b) mod 256)%Z.

Definition invert_stage (bw : list (list Z)) : list (list Z) := map2d invert_px bw.

(** What [noise_at] makes of the four corner gradients and the offsets
    [sx], [sy] (lines 106-123). *)
Definition corner_mix (g00 g10 g01 g11 : Q * Q) (sx sy : Q) : Q :=
  let dx1 := sub64 sx 1 in
  let dy1 := sub64 sy 1 in
  let n00 := add64 (mul64 (fst g00) sx) (mul64 (snd g00) sy) in
  let n10 := add64 (mul64 (fst g10) dx1) (mul64 (snd g10) sy) in
  let n01 := add64 (mul64 (fst g01) sx) (mul64 (snd g01) dy1) in
  let n11 := add64 (mul64 (fst g11) dx1) (mul64 (snd g11) dy1) in
  lerp (lerp n00 n10 (fade sx)) (lerp n01 n11 (fade sx)) (fade sy).

(** The curve the description gives the ramps of the mask: the quintic
    [6t^5 - 15t^4 + 10t^3], evaluated in float64 in the order of line 21,
    at the distance to the nearer border, in pixels. *)
Definition quintic64 (t : Q) : Q :=
  mul64 (mul64 (mul64 t t) t) (add64 (mul64 t (sub64 (mul64 t 6) 15)) 10).

Definition edge_distance (n x : Z) : Z := Z.min x (n - 1 - x).

End Stages.

(** Element [j, c] of an integer array. *)
Definition pxz (bw : list (list Z)) (j c : nat) : Z := nth c (nth j bw []) 0%Z.

(** Two outcomes of [noise_at] that are the same exception or equal
    numbers. *)
Definition value_eq (a b : result Q) : Prop :=
  match a, b with
  | Ok u, Ok v => u == v
  | Err e, Err e' => e = e'
  | NonFinite, NonFinite => True
  | _, _ => False
  end.

(** A coordinate that falls on a node of the lattice. *)
Definition on_node (x : Q) : Prop := x == inject_Z (Qfloor x).

(** * Lemmas *)

(** ** The error monad *)

Lemma bind_Ok {A B : Type} (m : result A) (k : A -> result B) (b : B) :
  bind m k = Ok b -> exists a, m = Ok a /\ k a = Ok b.
Proof. destruct m as [a|e|]; simpl; intros H; [eauto | discriminate | discriminate]. Qed.

Lemma check_Ok (b : bool) (u : unit) : check b = Ok u -> b = true.
Proof. destruct b; [reflexivity | discriminate]. Qed.

Lemma check_true (b : bool) : b = true -> check b = Ok tt.
Proof. intros ->; reflexivity. Qed.

(** [NonFinite] comes from a [check] only. *)
Lemma bind_finite {A B : Type} (m : result A) (k : A -> result B) :
  m <> NonFinite -> (forall a, k a <> NonFinite) -> bind m k <> NonFinite.
Proof. destruct m as [a|e|]; simpl; intros H Hk; [apply Hk | discriminate | contradiction H; reflexivity]. Qed.

Lemma mapM_finite {A B : Type} (f : A -> result B) (l : list A) :
  (forall a, f a <> NonFinite) -> mapM f l <> NonFinite.
Proof.
  intros H; induction l as [|a l IH]; simpl; [discriminate|].
  apply bind_finite; [apply H|]; intros b.
  apply bind_finite; [exact IH|]; discriminate.
Qed.

Lemma mapM_Ok_Forall2 {A B : Type} (f : A -> result B) (l : list A) (bs : list B) :
  mapM f l = Ok bs -> Forall2 (fun a b => f a = Ok b) l bs.
Proof.
  revert bs; induction l as [|a l IH]; simpl; intros bs H.
  - inversion H; constructor.
  - apply bind_Ok in H as (b & Hb & H).
    apply bind_Ok in H as (bs' & Hbs & H).
    inversion H; subst; constructor; auto.
Qed.

Lemma mapM_total {A B : Type} (f : A -> result B) (l : list A) :
  Forall (fun a => exists b, f a = Ok b) l -> exists bs, mapM f l = Ok bs.
Proof.
  induction 1 as [|a l (b & Hb) _ (bs & Hbs)]; simpl.
  - eauto.
  - rewrite Hb, Hbs; simpl; eauto.
Qed.

Lemma Forall2_length_eq {A B : Type} (R : A -> B -> Prop) (l : list A) (l' : list B) :
  Forall2 R l l' -> length l = length l'.
Proof. induction 1; simpl; congruence. Qed.

Lemma range_length (n : Z) : length (range n) = Z.to_nat n.
Proof. unfold range; rewrite length_map, length_seq; reflexivity. Qed.

Lemma range_nonpos (n : Z) : (n <= 0)%Z -> range n = [].
Proof. intros H; unfold range; replace (Z.to_nat n) with 0%nat by lia; reflexivity. Qed.

Lemma range_snoc (n : nat) : range (Z.of_nat (S n)) = range (Z.of_nat n) ++ [Z.of_nat n].
Proof.
  unfold range; rewrite !Nat2Z.id, seq_S, map_app; reflexivity.
Qed.

Lemma In_range (n i : Z) : In i (range n) <-> (0 <= i < n)%Z.
Proof.
  unfold range; rewrite in_map_iff; split.
  - intros (k & <- & Hk); apply in_seq in Hk; lia.
  - intros H; exists (Z.to_nat i); split; [lia | apply in_seq; lia].
Qed.

(** ** Reductions *)

Lemma fold_left_Zmin_le (l : list Z) (a : Z) :
  (fold_left Z.min l a <= a)%Z /\ forall x, In x l -> (fold_left Z.min l a <= x)%Z.
Proof.
  revert a; induction l as [|b l IH]; intros a; simpl.
  - split; [lia | intros x []].
  - destruct (IH (Z.min a b)) as [H1 H2]; split; [lia|].
    intros x [<-|Hx]; [lia | auto].
Qed.

Lemma fold_left_Zmax_ge (l : list Z) (a : Z) :
  (a <= fold_left Z.max l a)%Z /\ forall x, In x l -> (x <= fold_left Z.max l a)%Z.
Proof.
  revert a; induction l as [|b l IH]; intros a; simpl.
  - split; [lia | intros x []].
  - destruct (IH (Z.max a b)) as [H1 H2]; split; [lia|].
    intros x [<-|Hx]; [lia | auto].
Qed.

Lemma fold_left_Qmin_le (l : list Q) (a : Q) :
  fold_left Qmin l a <= a /\ forall x, In x l -> fold_left Qmin l a <= x.
Proof.
  revert a; induction l as [|b l IH]; intros a; simpl.
  - split; [apply Qle_refl | intros x []].
  - destruct (IH (Qmin a b)) as [H1 H2]; split.
    + eapply Qle_trans; [exact H1 | apply Q.le_min_l].
    + intros x [<-|Hx]; [eapply Qle_trans; [exact H1 | apply Q.le_min_r] | auto].
Qed.

Lemma fold_left_Qmax_ge (l : list Q) (a : Q) :
  a <= fold_left Qmax l a /\ forall x, In x l -> x <= fold_left Qmax l a.
Proof.
  revert a; induction l as [|b l IH]; intros a; simpl.
  - split; [apply Qle_refl | intros x []].
  - destruct (IH (Qmax a b)) as [H1 H2]; split.
    + eapply Qle_trans; [apply Q.le_max_l | exact H1].
    + intros x [<-|Hx]; [eapply Qle_trans; [apply Q.le_max_r | exact H1] | auto].
Qed.

Lemma reduce_total {A : Type} (op : A -> A -> A) (what : string) (l : list A) :
  l <> [] -> exists m, reduce op what l = Ok m.
Proof. destruct l; [congruence | simpl; eauto]. Qed.

Lemma zmin_le (l : list Z) (m : Z) : zmin l = Ok m -> forall x, In x l -> (m <= x)%Z.
Proof.
  destruct l as [|a l]; simpl; intros H; inversion H; subst.
  destruct (fold_left_Zmin_le l a) as [H1 H2]; intros x [<-|Hx]; auto.
Qed.

Lemma zmax_ge (l : list Z) (m : Z) : zmax l = Ok m -> forall x, In x l -> (x <= m)%Z.
Proof.
  destruct l as [|a l]; simpl; intros H; inversion H; subst.
  destruct (fold_left_Zmax_ge l a) as [H1 H2]; intros x [<-|Hx]; auto.
Qed.

Lemma qmin_le (l : list Q) (m : Q) : qmin l = Ok m -> forall x, In x l -> m <= x.
Proof.
  destruct l as [|a l]; simpl; intros H; inversion H; subst.
  destruct (fold_left_Qmin_le l a) as [H1 H2]; intros x [<-|Hx]; auto.
Qed.

Lemma qmax_ge (l : list Q) (m : Q) : qmax l = Ok m -> forall x, In x l -> x <= m.
Proof.
  destruct l as [|a l]; simpl; intros H; inversion H; subst.
  destruct (fold_left_Qmax_ge l a) as [H1 H2]; intros x [<-|Hx]; auto.
Qed.

(** ** Python's round *)

Lemma py_round_bounds (x : Q) : (Qfloor x <= py_round x <= Qfloor x + 1)%Z.
Proof.
  unfold py_round; destruct (Qcompare _ _); [destruct (Z.even _)| |]; lia.
Qed.

Lemma py_round_comp (x y : Q) : x == y -> py_round x = py_round y.
Proof.
  intros H; unfold py_round.
  rewrite (Qfloor_comp _ _ H).
  assert (E : x - inject_Z (Qfloor y) == y - inject_Z (Qfloor y)) by (rewrite H; reflexivity).
  rewrite (Qcompare_comp _ _ E _ _ (Qeq_refl (1 # 2))); reflexivity.
Qed.

Lemma py_round_Z (z : Z) : py_round (inject_Z z) = z.
Proof.
  unfold py_round; rewrite Qfloor_Z.
  destruct (Qcompare_spec (inject_Z z - inject_Z z) (1 # 2)) as [H|H|H]; try reflexivity; lra.
Qed.

Lemma py_round_mono (x y : Q) : x <= y -> (py_round x <= py_round y)%Z.
Proof.
  intros H.
  pose proof (Qfloor_resp_le _ _ H) as Hf.
  destruct (Z.eq_dec (Qfloor x) (Qfloor y)) as [E|N].
  - unfold py_round; rewrite E.
    destruct (Qcompare_spec (x - inject_Z (Qfloor y)) (1 # 2)) as [H1|H1|H1];
    destruct (Qcompare_spec (y - inject_Z (Qfloor y)) (1 # 2)) as [H2|H2|H2];
    try destruct (Z.even (Qfloor y)); try lia; lra.
  - pose proof (py_round_bounds x); pose proof (py_round_bounds y); lia.
Qed.

(** ** Rounding to a binary format *)

Lemma pow2_pos (e : Z) : 0 < pow2 e.
Proof. apply Qpower_0_lt; reflexivity. Qed.

Lemma pow2_add (a b : Z) : pow2 (a + b) == pow2 a * pow2 b.
Proof. apply Qpower_plus; discriminate. Qed.

Lemma pow2_cancel (e : Z) : pow2 e * pow2 (- e) == 1.
Proof. rewrite <- pow2_add, Z.add_opp_diag_r; reflexivity. Qed.

Lemma pow2_le (a b : Z) : (a <= b)%Z -> pow2 a <= pow2 b.
Proof. intros H; apply Qpower_le_compat_l; [exact H | discriminate]. Qed.

Lemma pow2_lt (a b : Z) : (a < b)%Z -> pow2 a < pow2 b.
Proof. intros H; apply Qpower_lt_compat_l; [exact H | reflexivity]. Qed.

Lemma pow2_lt_inv (a b : Z) : pow2 a < pow2 b -> (a < b)%Z.
Proof. intros H; eapply Qpower_lt_compat_l_inv; [exact H | reflexivity]. Qed.

Lemma pow2_Z (e : Z) : (0 <= e)%Z -> pow2 e == inject_Z (2 ^ e).
Proof. intros H; unfold pow2; rewrite Zpower_Qpower by exact H; reflexivity. Qed.

Lemma Qabs_num_den (x : Q) :
  Qabs x * inject_Z (Zpos (Qden x)) == inject_Z (Z.abs (Qnum x)).
Proof. destruct x as [n d]; unfold Qabs, Qeq, Qmult, inject_Z; simpl; lia. Qed.

Lemma mag_spec (x : Q) : ~ x == 0 -> pow2 (mag x - 1) <= Qabs x /\ Qabs x < pow2 (mag x).
Proof.
  intros Hx.
  set (n := Z.abs (Qnum x)); set (d := Zpos (Qden x)).
  assert (Hn : (0 < n)%Z).
  { unfold n; destruct x as [a b]; unfold Qeq in Hx; simpl in *; lia. }
  assert (Hd : (0 < d)%Z) by (unfold d; lia).
  destruct (Z.log2_spec n Hn) as [N1 N2]; destruct (Z.log2_spec d Hd) as [D1 D2].
  pose proof (Z.log2_nonneg n) as Ln; pose proof (Z.log2_nonneg d) as Ld.
  pose proof (Qabs_num_den x) as E; fold n d in E.
  set (e0 := (Z.log2 n - Z.log2 d)%Z).
  assert (Hd' : 0 < inject_Z d) by (change 0 with (inject_Z 0); rewrite <- Zlt_Qlt; exact Hd).
  assert (Lo : pow2 (e0 - 1) <= Qabs x).
  { apply (Qmult_le_r _ _ (inject_Z d) Hd'); rewrite E.
    apply Qle_trans with (pow2 (e0 - 1) * pow2 (Z.log2 d + 1)).
    - apply Qmult_le_l; [apply pow2_pos|].
      rewrite pow2_Z by lia; rewrite <- Zle_Qle.
      replace (Z.log2 d + 1)%Z with (Z.succ (Z.log2 d)) by lia; lia.
    - rewrite <- pow2_add; replace (e0 - 1 + (Z.log2 d + 1))%Z with (Z.log2 n) by (unfold e0; lia).
      rewrite pow2_Z by lia; rewrite <- Zle_Qle; exact N1. }
  assert (Hi : Qabs x < pow2 (e0 + 1)).
  { apply (Qmult_lt_r _ _ (inject_Z d) Hd'); rewrite E.
    apply Qlt_le_trans with (pow2 (e0 + 1) * pow2 (Z.log2 d)).
    - rewrite <- pow2_add; replace (e0 + 1 + Z.log2 d)%Z with (Z.succ (Z.log2 n)) by (unfold e0; lia).
      rewrite pow2_Z by lia; rewrite <- Zlt_Qlt; exact N2.
    - apply Qmult_le_l; [apply pow2_pos|].
      rewrite pow2_Z by lia; rewrite <- Zle_Qle; exact D1. }
  unfold mag; fold n d e0.
  destruct (Qlt_le_dec (Qabs x) (pow2 e0)) as [H|H].
  - split; assumption.
  - replace (e0 + 1 - 1)%Z with e0 by lia; split; assumption.
Qed.

Lemma mag_unique (x : Q) (e : Z) :
  pow2 (e - 1) <= Qabs x -> Qabs x < pow2 e -> ~ x == 0 -> mag x = e.
Proof.
  intros H1 H2 Hx; destruct (mag_spec x Hx) as [M1 M2].
  assert (A : (mag x - 1 < e)%Z) by (apply pow2_lt_inv; eapply Qle_lt_trans; eassumption).
  assert (B : (e - 1 < mag x)%Z) by (apply pow2_lt_inv; eapply Qle_lt_trans; eassumption).
  lia.
Qed.

Lemma py_round_of_Z (x : Q) (k : Z) : x == inject_Z k -> py_round x = k.
Proof. intros E; rewrite (py_round_comp _ _ E); apply py_round_Z. Qed.

Lemma Qfloor_unique (t : Q) (z : Z) :
  inject_Z z <= t -> t < inject_Z (z + 1) -> Qfloor t = z.
Proof.
  intros H1 H2.
  pose proof (Qfloor_le t) as F1; pose proof (Qlt_floor t) as F2.
  assert (A : (Qfloor t < z + 1)%Z) by (rewrite Zlt_Qlt; eapply Qle_lt_trans; eassumption).
  assert (B : (z < Qfloor t + 1)%Z) by (rewrite Zlt_Qlt; eapply Qle_lt_trans; eassumption).
  lia.
Qed.

Lemma py_round_opp (t : Q) : py_round (- t) = (- py_round t)%Z.
Proof.
  pose proof (Qfloor_le t) as F1; pose proof (Qlt_floor t) as F2.
  set (f := Qfloor t) in *.
  rewrite inject_Z_plus in F2; change (inject_Z 1) with 1 in F2.
  destruct (Qeq_dec t (inject_Z f)) as [E|N].
  - rewrite (py_round_of_Z t f E).
    apply py_round_of_Z; rewrite E, inject_Z_opp; reflexivity.
  - assert (Fl : Qfloor (- t) = (- f - 1)%Z).
    { apply Qfloor_unique.
      - unfold Z.sub; rewrite inject_Z_plus, !inject_Z_opp; change (inject_Z 1) with 1; lra.
      - replace (- f - 1 + 1)%Z with (- f)%Z by lia; rewrite inject_Z_opp.
        assert (inject_Z f < t) by (apply Qle_lteq in F1; destruct F1 as [F1|F1];
          [exact F1 | contradiction N; symmetry; exact F1]).
        lra. }
    unfold py_round; rewrite Fl; fold f.
    assert (Ef : inject_Z (- f - 1) == - inject_Z f - 1).
    { unfold Z.sub; rewrite inject_Z_plus, !inject_Z_opp; reflexivity. }
    assert (Hev : Z.even (- f - 1) = negb (Z.even f)).
    { replace (- f - 1)%Z with (- Z.succ f)%Z by lia.
      rewrite Z.even_opp, Z.even_succ, <- Z.negb_even; reflexivity. }
    assert (Hlt : inject_Z f < t).
    { apply Qle_lteq in F1; destruct F1 as [F1|F1];
        [exact F1 | contradiction N; symmetry; exact F1]. }
    destruct (Qcompare_spec (t - inject_Z f) (1 # 2)) as [H1|H1|H1];
    destruct (Qcompare_spec (- t - inject_Z (- f - 1)) (1 # 2)) as [H2|H2|H2];
      rewrite ?Ef in H2; try lra; try lia.
    rewrite Hev; destruct (Z.even f); simpl; lia.
Qed.

Section Format.

Variables p emin : Z.
Hypothesis Hp : (24 <= p)%Z.
Hypothesis Hemin : (emin <= 0)%Z.

Let rnd := round_binary p emin.

Lemma round_zero (x : Q) : x == 0 -> rnd x == 0.
Proof.
  intros E; unfold rnd, round_binary.
  rewrite (py_round_of_Z _ 0); [apply Qmult_0_l|].
  eapply Qeq_trans; [apply Qmult_comp; [exact E | reflexivity] | apply Qmult_0_l].
Qed.

Lemma mag_comp (x y : Q) : ~ x == 0 -> x == y -> mag x = mag y.
Proof.
  intros Hx E.
  assert (Hy : ~ y == 0) by (rewrite <- E; exact Hx).
  destruct (mag_spec y Hy) as [M1 M2].
  apply mag_unique; rewrite ?E; assumption.
Qed.

Lemma round_comp (x y : Q) : x == y -> rnd x == rnd y.
Proof.
  intros E; destruct (Qeq_dec x 0) as [Z0|N0].
  - rewrite (round_zero x Z0), (round_zero y); [reflexivity | rewrite <- E; exact Z0].
  - unfold rnd, round_binary, cexp; rewrite <- (mag_comp x y N0 E).
    rewrite (py_round_comp (x * _) (y * pow2 (- Z.max (mag x - p) emin)));
      [reflexivity | apply Qmult_comp; [exact E | reflexivity]].
Qed.

(** A number [x] whose scaled value is an integer is left alone. *)
Lemma round_scaled_Z (x : Q) (k : Z) :
  x * pow2 (- cexp p emin x) == inject_Z k -> rnd x == x.
Proof.
  intros E; unfold rnd, round_binary.
  rewrite (py_round_of_Z _ k E), <- E, <- Qmult_assoc.
  rewrite (Qmult_comm (pow2 (- _))), pow2_cancel; apply Qmult_1_r.
Qed.

Lemma Qabs_scaled (m e : Z) : Qabs (inject_Z m * pow2 e) == inject_Z (Z.abs m) * pow2 e.
Proof.
  rewrite Qabs_Qmult, (Qabs_pos (pow2 e)) by (apply Qlt_le_weak, pow2_pos); reflexivity.
Qed.

(** The numbers [m * 2^e] with [|m| <= 2^p] and [e >= emin] are fixed. *)
Lemma round_fixed (m e : Z) :
  (emin <= e)%Z -> (Z.abs m <= 2 ^ p)%Z -> rnd (inject_Z m * pow2 e) == inject_Z m * pow2 e.
Proof.
  intros He Hm; set (x := inject_Z m * pow2 e).
  destruct (Z.eq_dec m 0) as [->|Nm].
  { assert (x == 0) by (unfold x; apply Qmult_0_l).
    rewrite (round_zero x); [symmetry|]; assumption. }
  assert (Nx : ~ x == 0).
  { unfold x; intros C; apply Qmult_integral in C as [C|C].
    - apply Nm; unfold Qeq, inject_Z in C; simpl in C; lia.
    - pose proof (pow2_pos e); lra. }
  destruct (mag_spec x Nx) as [M1 M2].
  pose proof (Qabs_scaled m e) as Ea; fold x in Ea.
  destruct (Z_lt_le_dec (Z.abs m) (2 ^ p)) as [Hlt|Hge].
  - assert (Hmag : (mag x - 1 < p + e)%Z).
    { apply pow2_lt_inv; eapply Qle_lt_trans; [exact M1|].
      rewrite Ea, pow2_add; apply Qmult_lt_compat_r; [apply pow2_pos|].
      rewrite pow2_Z by lia; rewrite <- Zlt_Qlt; exact Hlt. }
    assert (Hc : (cexp p emin x <= e)%Z) by (unfold cexp; lia).
    apply (round_scaled_Z x (m * 2 ^ (e - cexp p emin x))).
    set (c := cexp p emin x) in *.
    unfold x; rewrite <- Qmult_assoc, <- pow2_add, inject_Z_mult.
    rewrite <- (pow2_Z (e - c)) by lia.
    replace (e + - c)%Z with (e - c)%Z by lia; reflexivity.
  - assert (Em : Z.abs m = (2 ^ p)%Z) by lia.
    assert (Hmag : mag x = (p + e + 1)%Z).
    { apply mag_unique; [| |exact Nx]; rewrite Ea, Em, <- pow2_Z by lia.
      - replace (p + e + 1 - 1)%Z with (p + e)%Z by lia; rewrite pow2_add; apply Qle_refl.
      - rewrite <- pow2_add; apply pow2_lt; lia. }
    assert (Hc : cexp p emin x = (e + 1)%Z) by (unfold cexp; lia).
    assert (E2 : (2 ^ p = 2 * 2 ^ (p - 1))%Z).
    { replace p with (Z.succ (p - 1)) at 1 by lia; apply Z.pow_succ_r; lia. }
    apply (round_scaled_Z x (m / 2)); rewrite Hc.
    unfold x; rewrite <- Qmult_assoc, <- pow2_add.
    replace (e + - (e + 1))%Z with (-1)%Z by lia.
    assert (Ek : m = (2 * (m / 2))%Z).
    { destruct (Z.abs_spec m) as [[_ A]|[_ A]]; rewrite A in Em.
      - rewrite Em, E2, Z.mul_comm, Z.div_mul by lia; lia.
      - replace m with (- (2 ^ (p - 1) * 2))%Z at 2 by lia.
        rewrite Z.div_opp_l_z, Z.div_mul by (try apply Z.mod_mul; lia); lia. }
    rewrite Ek at 1; rewrite inject_Z_mult.
    unfold pow2; change (2 ^ (-1)) with (1 # 2); change (inject_Z 2) with 2; field.
Qed.

Lemma scaled_bound (x : Q) :
  ~ x == 0 ->
  (- 2 ^ p <= py_round (x * pow2 (- cexp p emin x)) <= 2 ^ p)%Z.
Proof.
  intros Nx; destruct (mag_spec x Nx) as [M1 M2].
  set (c := cexp p emin x).
  assert (Hc : (mag x - c <= p)%Z) by (unfold c, cexp; lia).
  assert (B : Qabs (x * pow2 (- c)) <= inject_Z (2 ^ p)).
  { rewrite Qabs_Qmult, (Qabs_pos (pow2 (- c))) by (apply Qlt_le_weak, pow2_pos).
    rewrite <- pow2_Z by lia.
    apply Qle_trans with (pow2 (mag x) * pow2 (- c)).
    - apply Qmult_le_compat_r; [apply Qlt_le_weak; exact M2 | apply Qlt_le_weak, pow2_pos].
    - rewrite <- pow2_add; apply pow2_le; lia. }
  apply Qabs_Qle_condition in B as [B1 B2].
  split.
  - apply Z.le_trans with (py_round (inject_Z (- 2 ^ p))); [rewrite py_round_Z; lia|].
    apply py_round_mono; rewrite inject_Z_opp; exact B1.
  - apply Z.le_trans with (py_round (inject_Z (2 ^ p))); [|rewrite py_round_Z; lia].
    apply py_round_mono; exact B2.
Qed.

Lemma round_idem (x : Q) : rnd (rnd x) == rnd x.
Proof.
  destruct (Qeq_dec x 0) as [Z0|N0].
  - rewrite (round_comp (rnd x) 0 (round_zero x Z0)), (round_zero x Z0); apply round_zero; reflexivity.
  - unfold rnd at 2 3, round_binary; apply round_fixed.
    + unfold cexp; lia.
    + pose proof (scaled_bound x N0); lia.
Qed.

Lemma round_int (z : Z) : (Z.abs z <= 16777216)%Z -> rnd (inject_Z z) == inject_Z z.
Proof.
  intros H.
  assert (E : inject_Z z == inject_Z z * pow2 0) by (unfold pow2; simpl; ring).
  rewrite (round_comp _ _ E), round_fixed, <- E; [reflexivity | lia |].
  apply Z.le_trans with (2 ^ 24)%Z; [exact H | apply Z.pow_le_mono_r; lia].
Qed.

Lemma round_nonneg (x : Q) : 0 <= x -> 0 <= rnd x.
Proof.
  intros H; unfold rnd, round_binary.
  apply Qmult_le_0_compat; [|apply Qlt_le_weak, pow2_pos].
  change 0 with (inject_Z 0); rewrite <- Zle_Qle.
  rewrite <- (py_round_Z 0) at 1; apply py_round_mono.
  apply Qmult_le_0_compat; [exact H | apply Qlt_le_weak, pow2_pos].
Qed.

Lemma mag_opp (x : Q) : mag (- x) = mag x.
Proof.
  assert (E : Qabs (- x) = Qabs x).
  { destruct x as [n d]; unfold Qopp, Qabs; simpl; rewrite Z.abs_opp; reflexivity. }
  unfold mag; rewrite E.
  destruct x as [n d]; simpl; rewrite Z.abs_opp; reflexivity.
Qed.

Lemma round_opp (x : Q) : rnd (- x) == - rnd x.
Proof.
  unfold rnd, round_binary, cexp; rewrite mag_opp.
  set (c := Z.max (mag x - p) emin).
  assert (E : - x * pow2 (- c) == - (x * pow2 (- c))) by ring.
  rewrite (py_round_comp _ _ E), py_round_opp, inject_Z_opp; ring.
Qed.

Lemma mag_mono (x y : Q) : 0 < x -> x <= y -> (mag x <= mag y)%Z.
Proof.
  intros Hx Hxy.
  assert (Nx : ~ x == 0) by (intros C; rewrite C in Hx; discriminate).
  assert (Ny : ~ y == 0) by (intros C; rewrite C in Hxy; lra).
  destruct (mag_spec x Nx) as [X1 X2]; destruct (mag_spec y Ny) as [Y1 Y2].
  rewrite Qabs_pos in X1, X2 by lra; rewrite Qabs_pos in Y1, Y2 by lra.
  assert (A : (mag x - 1 < mag y)%Z) by (apply pow2_lt_inv; lra).
  lia.
Qed.

Lemma round_mono_pos (x y : Q) : 0 < x -> x <= y -> rnd x <= rnd y.
Proof.
  intros Hx Hxy.
  assert (Nx : ~ x == 0) by (intros C; rewrite C in Hx; discriminate).
  assert (Ny : ~ y == 0) by (intros C; rewrite C in Hxy; lra).
  destruct (mag_spec x Nx) as [X1 X2]; destruct (mag_spec y Ny) as [Y1 Y2].
  rewrite Qabs_pos in X1, X2 by lra; rewrite Qabs_pos in Y1, Y2 by lra.
  pose proof (mag_mono x y Hx Hxy) as Hm.
  unfold rnd, round_binary.
  set (cx := cexp p emin x); set (cy := cexp p emin y).
  assert (Hc : (cx <= cy)%Z) by (unfold cx, cy, cexp; lia).
  destruct (Z.eq_dec cx cy) as [E|N].
  - rewrite E; apply Qmult_le_compat_r; [|apply Qlt_le_weak, pow2_pos].
    rewrite <- Zle_Qle; apply py_round_mono.
    apply Qmult_le_compat_r; [exact Hxy | apply Qlt_le_weak, pow2_pos].
  - assert (Ecy : cy = (mag y - p)%Z) by (unfold cx, cy, cexp in *; lia).
    assert (Hlt : (mag x < mag y)%Z) by (unfold cx, cy, cexp in *; lia).
    set (t := Z.max (mag x) cx).
    apply Qle_trans with (pow2 t); [|apply Qle_trans with (pow2 (mag y - 1))].
    + assert (Hr : (py_round (x * pow2 (- cx)) <= 2 ^ (t - cx))%Z).
      { rewrite <- (py_round_Z (2 ^ (t - cx))); apply py_round_mono.
        rewrite <- pow2_Z by (unfold t; lia).
        replace (t - cx)%Z with (t + - cx)%Z by lia; rewrite pow2_add.
        apply Qmult_le_compat_r; [|apply Qlt_le_weak, pow2_pos].
        apply Qle_trans with (pow2 (mag x)); [lra | apply pow2_le; unfold t; lia]. }
      apply Qle_trans with (inject_Z (2 ^ (t - cx)) * pow2 cx).
      * apply Qmult_le_compat_r; [rewrite <- Zle_Qle; exact Hr | apply Qlt_le_weak, pow2_pos].
      * rewrite <- pow2_Z by (unfold t; lia); rewrite <- pow2_add.
        replace (t - cx + cx)%Z with t by lia; apply Qle_refl.
    + apply pow2_le; unfold t; lia.
    + assert (Hr : (2 ^ (p - 1) <= py_round (y * pow2 (- cy)))%Z).
      { rewrite <- (py_round_Z (2 ^ (p - 1))) at 1; apply py_round_mono.
        rewrite <- pow2_Z by lia.
        replace (p - 1)%Z with (mag y - 1 + - cy)%Z by lia; rewrite pow2_add.
        apply Qmult_le_compat_r; [exact Y1 | apply Qlt_le_weak, pow2_pos]. }
      apply Qle_trans with (inject_Z (2 ^ (p - 1)) * pow2 cy).
      * rewrite <- pow2_Z by lia; rewrite <- pow2_add.
        replace (p - 1 + cy)%Z with (mag y - 1)%Z by lia; apply Qle_refl.
      * apply Qmult_le_compat_r; [rewrite <- Zle_Qle; exact Hr | apply Qlt_le_weak, pow2_pos].
Qed.

Lemma round_mono (x y : Q) : x <= y -> rnd x <= rnd y.
Proof.
  intros Hxy.
  destruct (Qlt_le_dec 0 x) as [Hx|Hx]; [apply round_mono_pos; assumption|].
  assert (Rx : rnd x <= 0).
  { assert (H : 0 <= rnd (- x)) by (apply round_nonneg; lra).
    rewrite round_opp in H; lra. }
  destruct (Qlt_le_dec y 0) as [Hy|Hy].
  - assert (H : rnd (- y) <= rnd (- x)) by (apply round_mono_pos; lra).
    rewrite !round_opp in H; lra.
  - pose proof (round_nonneg y Hy); lra.
Qed.

Lemma rounding_binary : rounding rnd.
Proof.
  constructor.
  - exact round_comp.
  - exact round_mono.
  - exact round_idem.
  - exact round_int.
Qed.

End Format.

(** ** The concrete roundings are roundings *)

Lemma rounding_exact (r : Q -> Q) : exact r -> rounding r.
Proof.
  unfold exact; intros E; constructor.
  - intros x y H; rewrite (E x), (E y); exact H.
  - intros x y H; rewrite (E x), (E y); exact H.
  - intros x; rewrite (E (r x)); reflexivity.
  - intros z _; apply E.
Qed.

Lemma IEEE_exact_np : IEEE exact_np.
Proof.
  constructor; try (apply rounding_exact; intros x; reflexivity).
  reflexivity.
Qed.

Lemma IEEE_ieee_np : IEEE ieee_np.
Proof.
  constructor.
  - apply rounding_binary; lia.
  - apply rounding_binary; lia.
  - vm_compute; reflexivity.
Qed.

(** In IEEE arithmetic the divisor of a one-octave [fbm] is 1: adding
    1e-12 to 1 is lost in binary32. *)
Lemma ieee_np_absorbs_eps : @r32 ieee_np (@r64 ieee_np (1 + @eps64 ieee_np)) == 1.
Proof. vm_compute; reflexivity. Qed.

(** * The lattice *)

Section Lattice.

Context {np : NumPy}.

Lemma py_div_pos (a b : Q) : 0 < b -> py_div a b = Ok (div64 a b).
Proof.
  intros H; unfold py_div.
  destruct (Qeq_bool b 0) eqn:E; [|reflexivity].
  apply Qeq_bool_iff in E; lra.
Qed.

Lemma py_div_nonzero (a b : Q) : ~ b == 0 -> py_div a b = Ok (div64 a b).
Proof.
  intros H; unfold py_div.
  destruct (Qeq_bool b 0) eqn:E; [|reflexivity].
  apply Qeq_bool_iff in E; contradiction.
Qed.

Lemma py_div_zero (a b : Q) : b == 0 -> py_div a b = Err ZeroDivisionError.
Proof.
  intros H; unfold py_div.
  destruct (Qeq_bool b 0) eqn:E; [reflexivity|].
  apply Qeq_bool_neq in E; contradiction.
Qed.

Lemma tile_cells_pos (dimension : Z) (scale : Q) :
  0 < scale ->
  tile_cells dimension scale = Ok (Z.max 1 (py_round (div64 (inject_Z dimension) scale))).
Proof. intros H; unfold tile_cells; rewrite (py_div_pos _ _ H); reflexivity. Qed.

Lemma tile_cells_ge_1 (dimension : Z) (scale : Q) (g : Z) :
  tile_cells dimension scale = Ok g -> (1 <= g)%Z.
Proof.
  unfold tile_cells; intros H.
  apply bind_Ok in H as (q & _ & H); inversion H; lia.
Qed.

Lemma np_index_in_range (n i : Z) : (0 <= i < n)%Z -> np_index n i = Ok i.
Proof.
  intros H; unfold np_index.
  replace ((0 <=? i) && (i <? n))%Z with true; [reflexivity|].
  symmetry; apply andb_true_iff; split; [apply Z.leb_le | apply Z.ltb_lt]; lia.
Qed.

Lemma grads_in_range (rng gh gw gj gi : Z) :
  (0 <= gj < gh)%Z -> (0 <= gi < gw)%Z ->
  grads rng gh gw gj gi =
  Ok (np_cos (rng_uniform rng gh gw gj gi), np_sin (rng_uniform rng gh gw gj gi)).
Proof.
  intros Hj Hi; unfold grads.
  rewrite (np_index_in_range _ _ Hj), (np_index_in_range _ _ Hi); reflexivity.
Qed.

Lemma grad_at_tileable_total (rng gw gh ix iy : Z) :
  (1 <= gw)%Z -> (1 <= gh)%Z -> exists g, grad_at_tileable rng gw gh ix iy = Ok g.
Proof.
  intros Hw Hh; unfold grad_at_tileable.
  rewrite grads_in_range; [eauto | apply Z.mod_pos_bound; lia | apply Z.mod_pos_bound; lia].
Qed.

(** C5.  In tileable mode the lattice has [grid_w] by [grid_h] cells, both
    at least 1; the lookup [grad_at] succeeds at every integer coordinate
    pair and returns the same gradient at [ix] and [ix + k * grid_w], and at
    [iy] and [iy + k * grid_h], for every integer [k]. *)
Theorem tileable_lookup_periodic (rng width height : Z) (scale : Q) (gw gh ix iy k : Z) :
  tile_cells width scale = Ok gw ->
  tile_cells height scale = Ok gh ->
  (exists g, grad_at_tileable rng gw gh ix iy = Ok g) /\
  grad_at_tileable rng gw gh (ix + k * gw) iy = grad_at_tileable rng gw gh ix iy /\
  grad_at_tileable rng gw gh ix (iy + k * gh) = grad_at_tileable rng gw gh ix iy.
Proof.
  intros Hw Hh.
  apply tile_cells_ge_1 in Hw; apply tile_cells_ge_1 in Hh.
  split; [apply grad_at_tileable_total; assumption|].
  unfold grad_at_tileable; split.
  - rewrite Z_mod_plus_full; reflexivity.
  - rewrite Z_mod_plus_full; reflexivity.
Qed.

Lemma linspace_total (stop : Q) (num : Z) :
  (0 <= num)%Z -> exists xs, linspace stop num = Ok xs /\ length xs = Z.to_nat num.
Proof.
  intros H; unfold linspace.
  replace (num <? 0)%Z with false by (symmetry; apply Z.ltb_ge; lia).
  eexists; split; [reflexivity|].
  rewrite length_map, range_length; reflexivity.
Qed.

Lemma linspace_Ok_length (stop : Q) (num : Z) (xs : list Q) :
  linspace stop num = Ok xs -> (0 <= num)%Z /\ length xs = Z.to_nat num.
Proof.
  unfold linspace; destruct (num <? 0)%Z eqn:E; [discriminate|].
  intros H; inversion H; subst.
  apply Z.ltb_ge in E; split; [exact E|].
  rewrite length_map, range_length; reflexivity.
Qed.

Lemma meshgrid_shape (xs ys : list Q) :
  length (meshgrid xs ys) = length ys /\
  Forall (fun row => length row = length xs) (meshgrid xs ys).
Proof.
  unfold meshgrid; split; [apply length_map|].
  apply Forall_forall; intros row Hrow.
  apply in_map_iff in Hrow as (y & <- & _); apply length_map.
Qed.

Lemma meshgrid_concat_nonempty (xs ys : list Q) :
  xs <> [] -> ys <> [] -> concat (meshgrid xs ys) <> [].
Proof.
  destruct xs as [|x xs]; [congruence|]; destruct ys as [|y ys]; [congruence|].
  intros _ _; simpl; discriminate.
Qed.

Lemma lattice_tileable_total (rng width height : Z) (scale : Q) :
  (0 <= width)%Z -> (0 <= height)%Z -> 0 < scale ->
  exists xs ys,
    lattice_tileable rng width height scale =
    Ok (meshgrid xs ys,
        {| grid_w := Z.max 1 (py_round (div64 (inject_Z width) scale));
           grid_h := Z.max 1 (py_round (div64 (inject_Z height) scale));
           grad_at := grad_at_tileable rng
                        (Z.max 1 (py_round (div64 (inject_Z width) scale)))
                        (Z.max 1 (py_round (div64 (inject_Z height) scale))) |}).
Proof.
  intros Hw Hh Hs; unfold lattice_tileable.
  rewrite !(tile_cells_pos _ _ Hs); cbn [bind].
  destruct (linspace_total
              (inject_Z (Z.max 1 (py_round (div64 (inject_Z width) scale)))) width Hw)
    as (xs & -> & _).
  destruct (linspace_total
              (inject_Z (Z.max 1 (py_round (div64 (inject_Z height) scale)))) height Hh)
    as (ys & -> & _).
  cbn [bind]; eauto.
Qed.


Lemma in_x0_of (grid : list (list (Q * Q))) (row : list (Q * Q)) (p : Q * Q) :
  In row grid -> In p row -> In (Qfloor (fst p)) (x0_of grid) /\ In (Qfloor (snd p)) (y0_of grid).
Proof.
  intros Hrow Hp.
  assert (In p (concat grid)) by (apply in_concat; eauto).
  unfold x0_of, y0_of; split; apply in_map_iff; eauto.
Qed.

Lemma bbox_corner_bounds (grid : list (list (Q * Q))) (gx_min gx_max gy_min gy_max : Z) :
  bbox grid = Ok (gx_min, gx_max, gy_min, gy_max) ->
  forall row p c, In row grid -> In p row -> In c (corners p) ->
    (0 <= fst c - gx_min < gx_max - gx_min + 1)%Z /\
    (0 <= snd c - gy_min < gy_max - gy_min + 1)%Z.
Proof.
  unfold bbox; intros H row p c Hrow Hp Hc.
  apply bind_Ok in H as (x_min & Hxmin & H).
  apply bind_Ok in H as (x_max & Hxmax & H).
  apply bind_Ok in H as (y_min & Hymin & H).
  apply bind_Ok in H as (y_max & Hymax & H).
  inversion H; subst; clear H.
  destruct (in_x0_of _ _ _ Hrow Hp) as [Ix Iy].
  pose proof (zmin_le _ _ Hxmin _ Ix) as Bx0.
  pose proof (zmin_le _ _ Hymin _ Iy) as By0.
  assert (Bx1 : (Qfloor (fst p) + 1 <= gx_max)%Z).
  { apply (zmax_ge _ _ Hxmax); unfold x1_of; apply in_map_iff; eauto. }
  assert (By1 : (Qfloor (snd p) + 1 <= gy_max)%Z).
  { apply (zmax_ge _ _ Hymax); unfold y1_of; apply in_map_iff; eauto. }
  unfold corners in Hc; simpl in Hc.
  destruct Hc as [<-|[<-|[<-|[<-|[]]]]]; simpl; lia.
Qed.

Lemma bbox_total (grid : list (list (Q * Q))) :
  concat grid <> [] -> exists b, bbox grid = Ok b.
Proof.
  intros Hne; unfold bbox, zmin, zmax.
  destruct (reduce_total Z.min "minimum" (x0_of grid)) as (gx_min & ->).
  { unfold x0_of; intros E; apply map_eq_nil in E; contradiction. }
  destruct (reduce_total Z.max "maximum" (x1_of grid)) as (gx_max & ->).
  { unfold x1_of, x0_of; intros E; do 2 apply map_eq_nil in E; contradiction. }
  destruct (reduce_total Z.min "minimum" (y0_of grid)) as (gy_min & ->).
  { unfold y0_of; intros E; apply map_eq_nil in E; contradiction. }
  destruct (reduce_total Z.max "maximum" (y1_of grid)) as (gy_max & ->).
  { unfold y1_of, y0_of; intros E; do 2 apply map_eq_nil in E; contradiction. }
  cbn [bind]; eauto.
Qed.

Lemma lattice_bbox_total (rng width height : Z) (scale : Q) :
  (1 <= width)%Z -> (1 <= height)%Z -> 0 < scale ->
  exists xs ys gx_min gx_max gy_min gy_max,
    length xs = Z.to_nat width /\ length ys = Z.to_nat height /\
    bbox (meshgrid xs ys) = Ok (gx_min, gx_max, gy_min, gy_max) /\
    lattice_bbox rng width height scale =
      Ok (meshgrid xs ys,
          {| grid_w := gx_max - gx_min + 1; grid_h := gy_max - gy_min + 1;
             grad_at := grad_at_bbox rng (gx_max - gx_min + 1) (gy_max - gy_min + 1)
                          gx_min gy_min |}).
Proof.
  intros Hw Hh Hs; unfold lattice_bbox.
  rewrite !(py_div_pos _ _ Hs); cbn [bind].
  destruct (linspace_total (div64 (inject_Z width) scale) width) as (xs & -> & Lx); [lia|].
  cbn [bind].
  destruct (linspace_total (div64 (inject_Z height) scale) height) as (ys & -> & Ly); [lia|].
  cbn [bind].
  destruct (bbox_total (meshgrid xs ys)) as ([[[gx_min gx_max] gy_min] gy_max] & Hb).
  { apply meshgrid_concat_nonempty; intros ->; simpl in *; lia. }
  rewrite Hb; cbn [bind].
  exists xs, ys, gx_min, gx_max, gy_min, gy_max; auto.
Qed.


End Lattice.

(** * The threshold stage *)

Lemma Forall2_map_same {A B : Type} (R : A -> B -> Prop) (g : A -> B) (l : list A) :
  (forall a, In a l -> R a (g a)) -> Forall2 R l (map g l).
Proof.
  induction l as [|a l IH]; simpl; intros H; constructor; auto.
Qed.

Lemma filter_length_le {A : Type} (p q : A -> bool) (l : list A) :
  (forall a, p a = true -> q a = true) ->
  (length (filter p l) <= length (filter q l))%nat.
Proof.
  intros H; induction l as [|a l IH]; simpl; [lia|].
  destruct (p a) eqn:Ep.
  - rewrite (H a Ep); simpl; lia.
  - destruct (q a); simpl; lia.
Qed.

Section Threshold.

Context {np : NumPy}.

Lemma threshold_px_cases (t v : Q) :
  (r32 t < v /\ threshold_px t v = 255%Z) \/ (v <= r32 t /\ threshold_px t v = 0%Z).
Proof.
  unfold threshold_px; destruct (Qlt_le_dec (r32 t) v) as [H|H]; [left | right]; split; auto.
Qed.

Lemma count_on_concat (n : field) (t : Q) :
  count_on (threshold_stage n t) =
  length (filter (fun v => Z.eqb 255 (threshold_px t v)) (concat n)).
Proof.
  unfold count_on, threshold_stage, map2d.
  rewrite <- concat_map.
  induction (concat n) as [|v l IH]; cbn [map filter]; [reflexivity|].
  destruct (Z.eqb 255 (threshold_px t v)); cbn [length]; rewrite IH; reflexivity.
Qed.

Context {ieee : IEEE np}.

(** C7.  The threshold stage compares a pixel [v] with the threshold brought
    to float32: [v] maps to 255 when [v > float32(threshold)] and to 0
    otherwise, a pixel equal to [float32(threshold)] maps to 0, and the
    output holds no value other than 0 and 255.  For a float32 pixel,
    [v <= threshold] still gives 0, and 255 is given only when
    [v > threshold]. *)
Theorem threshold_stage_binary (n : field) (t : Q) :
  Forall2 (Forall2 (fun v b =>
      (r32 t < v -> b = 255%Z) /\ (v <= r32 t -> b = 0%Z) /\ (v == r32 t -> b = 0%Z) /\
      (b = 0%Z \/ b = 255%Z) /\
      (r32 v == v -> (v <= t -> b = 0%Z) /\ (b = 255%Z -> t < v))))
    n (threshold_stage n t).
Proof.
  unfold threshold_stage, map2d.
  apply Forall2_map_same; intros row _.
  apply Forall2_map_same; intros v _.
  assert (M : r32 v == v -> v <= t -> v <= r32 t).
  { intros Fv Hv; rewrite <- Fv; apply (rnd_mono _ r32_rounding), Hv. }
  destruct (threshold_px_cases t v) as [[H ->]|[H ->]].
  - split; [reflexivity|]; split; [intros H'; lra|]; split; [intros H'; lra|].
    split; [right; reflexivity|]; intros Fv; split.
    + intros Hv; specialize (M Fv Hv); lra.
    + intros _; apply Qnot_le_lt; intros Hv; specialize (M Fv Hv); lra.
  - split; [intros H'; lra|]; split; [reflexivity|]; split; [reflexivity|].
    split; [left; reflexivity|]; intros Fv; split; [reflexivity | discriminate].
Qed.

(** C8.  For a fixed field and thresholds [t1 <= t2], the stage sets at
    most as many pixels to 255 at [t2] as at [t1]. *)
Theorem threshold_monotone (n : field) (t1 t2 : Q) :
  t1 <= t2 ->
  (count_on (threshold_stage n t2) <= count_on (threshold_stage n t1))%nat.
Proof.
  intros H; rewrite !count_on_concat.
  apply (rnd_mono _ r32_rounding) in H.
  apply filter_length_le; intros v Hv.
  destruct (threshold_px_cases t2 v) as [[H2 E2]|[H2 E2]]; rewrite E2 in Hv; [|discriminate].
  destruct (threshold_px_cases t1 v) as [[H1 E1]|[H1 E1]]; rewrite E1; [reflexivity|lra].
Qed.

End Threshold.

(** * Facts that rest on the rounding laws *)

Lemma clip01_range (v : Q) : 0 <= clip01 v <= 1.
Proof.
  unfold clip01.
  destruct (Q.max_spec v 0) as [[H1 E1]|[H1 E1]];
  destruct (Q.min_spec (Qmax v 0) 1) as [[H2 E2]|[H2 E2]]; lra.
Qed.

Lemma clip01_id (v : Q) : 0 <= v <= 1 -> clip01 v == v.
Proof.
  intros H; unfold clip01.
  destruct (Q.max_spec v 0) as [[H1 E1]|[H1 E1]];
  destruct (Q.min_spec (Qmax v 0) 1) as [[H2 E2]|[H2 E2]]; lra.
Qed.

Lemma clip01_ge_1 (v : Q) : 1 <= v -> clip01 v == 1.
Proof.
  intros H; unfold clip01.
  destruct (Q.max_spec v 0) as [[H1 E1]|[H1 E1]];
  destruct (Q.min_spec (Qmax v 0) 1) as [[H2 E2]|[H2 E2]]; lra.
Qed.

Lemma clip01_le_0 (v : Q) : v <= 0 -> clip01 v == 0.
Proof.
  intros H; unfold clip01.
  destruct (Q.max_spec v 0) as [[H1 E1]|[H1 E1]];
  destruct (Q.min_spec (Qmax v 0) 1) as [[H2 E2]|[H2 E2]]; lra.
Qed.

Lemma nth_range (n : Z) (i : nat) (d : Z) :
  (Z.of_nat i < n)%Z -> nth i (range n) d = Z.of_nat i.
Proof.
  intros H; unfold range.
  rewrite (nth_indep _ d (Z.of_nat 0)) by (rewrite length_map, length_seq; lia).
  rewrite map_nth, seq_nth by lia; reflexivity.
Qed.

Lemma nth_map_range {A : Type} (g : Z -> A) (n : Z) (i : nat) (d : A) :
  (Z.of_nat i < n)%Z -> nth i (map g (range n)) d = g (Z.of_nat i).
Proof.
  intros H.
  rewrite (nth_indep _ d (g 0%Z)) by (rewrite length_map, range_length; lia).
  rewrite map_nth, nth_range by assumption; reflexivity.
Qed.

Lemma nth_zip_with {A B C : Type} (g : A -> B -> C) (a : list A) (b : list B)
  (i : nat) (da : A) (db : B) (dc : C) :
  (i < length a)%nat -> (i < length b)%nat ->
  nth i (zip_with g a b) dc = g (nth i a da) (nth i b db).
Proof.
  revert b i; induction a as [|x a IH]; intros [|y b] [|i]; simpl; intros Ha Hb;
    try lia; auto.
  apply IH; lia.
Qed.

Lemma zip_with_length {A B C : Type} (g : A -> B -> C) (a : list A) (b : list B) :
  length a = length b -> length (zip_with g a b) = length a.
Proof.
  revert b; induction a as [|x a IH]; intros [|y b]; simpl; intros H; try lia.
  rewrite IH; lia.
Qed.

Section Rounded.

Context {np : NumPy} {ieee : IEEE np}.

#[local] Instance r64_Proper : Proper (Qeq ==> Qeq) r64.
Proof. intros x y H; apply (rnd_compat _ r64_rounding); exact H. Qed.

#[local] Instance r32_Proper : Proper (Qeq ==> Qeq) r32.
Proof. intros x y H; apply (rnd_compat _ r32_rounding); exact H. Qed.

Lemma r64_int (x : Q) (z : Z) :
  x == inject_Z z -> (Z.abs z <= 16777216)%Z -> r64 x == inject_Z z.
Proof. intros E H; rewrite E; apply (rnd_int _ r64_rounding); exact H. Qed.

Lemma r32_int (x : Q) (z : Z) :
  x == inject_Z z -> (Z.abs z <= 16777216)%Z -> r32 x == inject_Z z.
Proof. intros E H; rewrite E; apply (rnd_int _ r32_rounding); exact H. Qed.

Lemma r64_mono (x y : Q) : x <= y -> r64 x <= r64 y.
Proof. apply (rnd_mono _ r64_rounding). Qed.

Lemma r32_mono (x y : Q) : x <= y -> r32 x <= r32 y.
Proof. apply (rnd_mono _ r32_rounding). Qed.

Lemma r64_unit_interval (x : Q) : 0 <= x <= 1 -> 0 <= r64 x <= 1.
Proof.
  intros [H0 H1]; split.
  - rewrite <- (r64_int 0 0) by (try reflexivity; simpl; lia); apply r64_mono; exact H0.
  - rewrite <- (r64_int 1 1) by (try reflexivity; simpl; lia); apply r64_mono; exact H1.
Qed.

Lemma r32_unit_interval (x : Q) : 0 <= x <= 1 -> 0 <= r32 x <= 1.
Proof.
  intros [H0 H1]; split.
  - rewrite <- (r32_int 0 0) by (try reflexivity; simpl; lia); apply r32_mono; exact H0.
  - rewrite <- (r32_int 1 1) by (try reflexivity; simpl; lia); apply r32_mono; exact H1.
Qed.

Lemma fade_0 (t : Q) : t == 0 -> fade t == 0.
Proof.
  intros E; unfold fade, mul64, add64, sub64.
  assert (A : r64 (r64 (t * t) * t) == inject_Z 0)
    by (apply r64_int; [rewrite E; apply Qmult_0_r | simpl; lia]).
  apply (r64_int _ 0); [rewrite A; apply Qmult_0_l | simpl; lia].
Qed.

Lemma fade_1 (t : Q) : t == 1 -> fade t == 1.
Proof.
  intros E; unfold fade, mul64, add64, sub64.
  assert (A1 : r64 (t * t) == inject_Z 1)
    by (apply r64_int; [rewrite E; reflexivity | simpl; lia]).
  assert (A2 : r64 (r64 (t * t) * t) == inject_Z 1)
    by (apply r64_int; [rewrite A1, E; reflexivity | simpl; lia]).
  assert (B1 : r64 (t * 6) == inject_Z 6)
    by (apply r64_int; [rewrite E; reflexivity | simpl; lia]).
  assert (B2 : r64 (r64 (t * 6) - 15) == inject_Z (-9))
    by (apply r64_int; [rewrite B1; reflexivity | simpl; lia]).
  assert (B3 : r64 (t * r64 (r64 (t * 6) - 15)) == inject_Z (-9))
    by (apply r64_int; [rewrite B2, E; reflexivity | simpl; lia]).
  assert (B4 : r64 (r64 (t * r64 (r64 (t * 6) - 15)) + 10) == inject_Z 1)
    by (apply r64_int; [rewrite B3; reflexivity | simpl; lia]).
  apply (r64_int _ 1); [rewrite A2, B4; reflexivity | simpl; lia].
Qed.

End Rounded.

(** * The padding stage *)

Lemma nth_map_lt {A B : Type} (g : A -> B) (l : list A) (i : nat) (d : B) (d' : A) :
  (i < length l)%nat -> nth i (map g l) d = g (nth i l d').
Proof.
  intros H; rewrite (nth_indep _ d (g d')) by (rewrite length_map; exact H).
  apply map_nth.
Qed.

Lemma Forall_nth_lt {A : Type} (P : A -> Prop) (l : list A) (i : nat) (d : A) :
  Forall P l -> (i < length l)%nat -> P (nth i l d).
Proof. intros H Hi; rewrite Forall_forall in H; apply H, nth_In, Hi. Qed.

Section Padding.

Context {np : NumPy} {ieee : IEEE np}.

#[local] Existing Instance r64_Proper.
#[local] Existing Instance r32_Proper.

Lemma div64_zero_l (b : Q) : div64 0 b == 0.
Proof.
  unfold div64; apply (r64_int _ 0); [|simpl; lia].
  unfold Qdiv; apply Qmult_0_l.
Qed.

Lemma div64_ge_1 (a b : Z) : (0 < b <= a)%Z -> 1 <= div64 (inject_Z a) (inject_Z b).
Proof.
  intros H; unfold div64.
  rewrite <- (r64_int 1 1) by (try reflexivity; simpl; lia).
  apply r64_mono, Qle_shift_div_l.
  - change 0 with (inject_Z 0); rewrite <- Zlt_Qlt; lia.
  - rewrite Qmult_1_l, <- Zle_Qle; lia.
Qed.

Lemma ramp_border (n p x : Z) : (0 < p)%Z -> (x = 0 \/ x = n - 1)%Z -> ramp n p x == 0.
Proof.
  intros Hp Hx; unfold ramp; apply fade_0.
  set (a := div64 (inject_Z x) (inject_Z p)).
  set (b := div64 (inject_Z (n - 1 - x)) (inject_Z p)).
  pose proof (clip01_range a) as Ra; pose proof (clip01_range b) as Rb.
  destruct Hx as [->| ->].
  - assert (E : clip01 a == 0).
    { apply clip01_le_0; unfold a; rewrite (div64_zero_l (inject_Z p)); lra. }
    destruct (Q.min_spec (clip01 a) (clip01 b)) as [[H1 E1]|[H1 E1]]; lra.
  - assert (E : clip01 b == 0).
    { apply clip01_le_0; unfold b.
      replace (n - 1 - (n - 1))%Z with 0%Z by lia.
      rewrite (div64_zero_l (inject_Z p)); lra. }
    destruct (Q.min_spec (clip01 a) (clip01 b)) as [[H1 E1]|[H1 E1]]; lra.
Qed.

Lemma ramp_inside (n p x : Z) : (0 < p)%Z -> (p <= x <= n - 1 - p)%Z -> ramp n p x == 1.
Proof.
  intros Hp Hx; unfold ramp; apply fade_1.
  assert (Ea : clip01 (div64 (inject_Z x) (inject_Z p)) == 1)
    by (apply clip01_ge_1, div64_ge_1; lia).
  assert (Eb : clip01 (div64 (inject_Z (n - 1 - x)) (inject_Z p)) == 1)
    by (apply clip01_ge_1, div64_ge_1; lia).
  destruct (Q.min_spec (clip01 (div64 (inject_Z x) (inject_Z p)))
              (clip01 (div64 (inject_Z (n - 1 - x)) (inject_Z p)))) as [[H1 E1]|[H1 E1]]; lra.
Qed.

Lemma mask_axis_length (n p : Z) : length (mask_axis n p) = Z.to_nat n.
Proof. unfold mask_axis; rewrite length_map, range_length; reflexivity. Qed.

Lemma falloff_mask_shape (h w p : Z) :
  shape_is (falloff_mask h w p) (Z.to_nat h) (Z.to_nat w).
Proof.
  unfold shape_is, falloff_mask, outer32; split.
  - rewrite length_map; apply mask_axis_length.
  - apply Forall_forall; intros row Hrow.
    apply in_map_iff in Hrow as (a & <- & _).
    rewrite length_map; apply mask_axis_length.
Qed.

Lemma falloff_mask_px (h w p : Z) (j c : nat) :
  (Z.of_nat j < h)%Z -> (Z.of_nat c < w)%Z ->
  px (falloff_mask h w p) j c =
  r32 (mul64 (ramp h p (Z.of_nat j)) (ramp w p (Z.of_nat c))).
Proof.
  intros Hj Hc; unfold px, falloff_mask, outer32.
  rewrite (nth_map_lt _ _ _ _ 0) by (rewrite mask_axis_length; lia).
  rewrite (nth_map_lt _ _ _ _ 0) by (rewrite mask_axis_length; lia).
  unfold mask_axis; rewrite !nth_map_range by assumption; reflexivity.
Qed.

Lemma clip01_mono (x y : Q) : x <= y -> clip01 x <= clip01 y.
Proof.
  intros H; unfold clip01.
  apply Q.min_le_compat_r, Q.max_le_compat_r, H.
Qed.

Lemma quintic64_comp (t t' : Q) : t == t' -> quintic64 t == quintic64 t'.
Proof. intros E; unfold quintic64, mul64, add64, sub64; rewrite E; reflexivity. Qed.

Lemma div64_mono_l (a b p : Z) :
  (0 < p)%Z -> (a <= b)%Z -> div64 (inject_Z a) (inject_Z p) <= div64 (inject_Z b) (inject_Z p).
Proof.
  intros Hp H; unfold div64; apply r64_mono.
  apply Qmult_le_compat_r; [rewrite <- Zle_Qle; exact H|].
  apply Qinv_le_0_compat; change 0 with (inject_Z 0); rewrite <- Zle_Qle; lia.
Qed.

(** Each ramp is the quintic of the clipped distance to the nearer border
    over the padding. *)
Lemma ramp_quintic (n p x : Z) :
  (0 < p)%Z ->
  ramp n p x == quintic64 (clip01 (div64 (inject_Z (edge_distance n x)) (inject_Z p))).
Proof.
  intros Hp; unfold ramp.
  change (fade ?t) with (quintic64 t).
  apply quintic64_comp; unfold edge_distance.
  destruct (Z.min_spec x (n - 1 - x)) as [[H ->]|[H ->]].
  - apply Q.min_l, clip01_mono, div64_mono_l; lia.
  - apply Q.min_r, clip01_mono, div64_mono_l; lia.
Qed.

Lemma quintic64_exact (t : Q) :
  exact r64 -> quintic64 t == 6 * t * t * t * t * t - 15 * t * t * t * t + 10 * t * t * t.
Proof.
  unfold exact; intros E; unfold quintic64, mul64, add64, sub64.
  rewrite !E; ring.
Qed.

(** C9.  For padding p > 0 the mask of an h x w field is, at row j and
    column c, the product of the two per-axis ramps; each ramp is the
    quintic 6t^5 - 15t^4 + 10t^3 of the fade curve, evaluated in float64 at
    the distance to the nearer border over p, clipped to [0, 1] (without
    rounding, the polynomial itself); the mask is 0 at every pixel on a
    border and 1 at every pixel at distance >= p from all four borders; and
    the stage multiplies the field by it pixel by pixel. *)
Theorem falloff_mask_boundary (h w p : Z) (j c : nat) :
  (0 < p)%Z -> (Z.of_nat j < h)%Z -> (Z.of_nat c < w)%Z ->
  let y := Z.of_nat j in
  let x := Z.of_nat c in
  let m := px (falloff_mask h w p) j c in
  let ty := clip01 (div64 (inject_Z (edge_distance h y)) (inject_Z p)) in
  let tx := clip01 (div64 (inject_Z (edge_distance w x)) (inject_Z p)) in
  m = r32 (mul64 (ramp h p y) (ramp w p x)) /\
  ramp h p y == quintic64 ty /\ ramp w p x == quintic64 tx /\
  (exact r64 ->
     ramp h p y == 6 * ty * ty * ty * ty * ty - 15 * ty * ty * ty * ty + 10 * ty * ty * ty /\
     ramp w p x == 6 * tx * tx * tx * tx * tx - 15 * tx * tx * tx * tx + 10 * tx * tx * tx) /\
  m == r32 (mul64 (quintic64 ty) (quintic64 tx)) /\
  ((x = 0 \/ x = w - 1 \/ y = 0 \/ y = h - 1)%Z -> m == 0) /\
  ((p <= x <= w - 1 - p /\ p <= y <= h - 1 - p)%Z -> m == 1) /\
  (forall n : field, shape_is n (Z.to_nat h) (Z.to_nat w) ->
     px (padding_stage n p) j c = mul32 (px n j c) m).
Proof.
  intros Hp Hj Hc y x m ty tx.
  assert (Em : m = r32 (mul64 (ramp h p y) (ramp w p x)))
    by (apply falloff_mask_px; assumption).
  split; [exact Em|].
  split; [apply ramp_quintic, Hp|]; split; [apply ramp_quintic, Hp|].
  split.
  { intros E; split; (rewrite ramp_quintic by exact Hp); apply quintic64_exact, E. }
  split; [|split; [|split]].
  - rewrite Em; unfold mul64; apply r32_Proper, r64_Proper.
    rewrite (ramp_quintic h p y Hp), (ramp_quintic w p x Hp); reflexivity.
  - intros Hb; rewrite Em; unfold mul64.
    apply (r32_int _ 0); [|simpl; lia].
    apply (r64_int _ 0); [|simpl; lia].
    destruct Hb as [Hb|[Hb|[Hb|Hb]]].
    + rewrite (ramp_border w p x) by auto; apply Qmult_0_r.
    + rewrite (ramp_border w p x) by auto; apply Qmult_0_r.
    + rewrite (ramp_border h p y) by auto; apply Qmult_0_l.
    + rewrite (ramp_border h p y) by auto; apply Qmult_0_l.
  - intros [Hx Hy]; rewrite Em; unfold mul64.
    apply (r32_int _ 1); [|simpl; lia].
    apply (r64_int _ 1); [|simpl; lia].
    rewrite (ramp_inside w p x), (ramp_inside h p y) by auto; reflexivity.
  - intros n [Hlen Hrows].
    unfold padding_stage.
    replace (p >? 0)%Z with true by (symmetry; apply Z.gtb_lt; lia).
    assert (Hjn : (j < length n)%nat) by lia.
    assert (Hw : length (hd [] n) = Z.to_nat w).
    { destruct n as [|row n]; [simpl in Hjn; lia|]; inversion Hrows; assumption. }
    rewrite Hlen, Hw, !Z2Nat.id by lia.
    destruct (falloff_mask_shape h w p) as [Mlen Mrows].
    unfold m, px, zip_with2d.
    rewrite (nth_zip_with _ _ _ _ [] [] []) by lia.
    apply nth_zip_with.
    + rewrite (Forall_nth_lt _ _ _ _ Hrows Hjn); lia.
    + rewrite (Forall_nth_lt _ _ _ _ Mrows) by lia; lia.
Qed.

End Padding.

(** * perlin2d *)

Lemma map2d_shape {A B : Type} (g : A -> B) (a : list (list A)) (h w : nat) :
  length a = h -> Forall (fun row => length row = w) a ->
  length (map2d g a) = h /\ Forall (fun row => length row = w) (map2d g a).
Proof.
  intros H1 H2; unfold map2d; split; [rewrite length_map; exact H1|].
  apply Forall_forall; intros row Hrow.
  apply in_map_iff in Hrow as (r & <- & Hr).
  rewrite length_map; rewrite Forall_forall in H2; auto.
Qed.

Lemma map2d_all {A : Type} (P : Q -> Prop) (g : A -> Q) (a : list (list A)) :
  (forall v, In v (concat a) -> P (g v)) -> all_px P (map2d g a).
Proof.
  intros H; unfold all_px, map2d.
  apply Forall_forall; intros row Hrow.
  apply in_map_iff in Hrow as (r & <- & Hr).
  apply Forall_forall; intros v Hv.
  apply in_map_iff in Hv as (u & <- & Hu).
  apply H, in_concat; eauto.
Qed.

Lemma mapM2d_shape {A B : Type} (g : A -> result B) (a : list (list A))
  (b : list (list B)) (h w : nat) :
  mapM (mapM g) a = Ok b ->
  length a = h -> Forall (fun row => length row = w) a ->
  length b = h /\ Forall (fun row => length row = w) b.
Proof.
  intros H H1 H2.
  apply mapM_Ok_Forall2 in H.
  split; [rewrite <- (Forall2_length_eq _ _ _ H); exact H1|].
  clear H1; induction H as [|r r' a b Hr _ IH]; constructor.
  - apply mapM_Ok_Forall2, Forall2_length_eq in Hr.
    inversion H2; congruence.
  - apply IH; inversion H2; assumption.
Qed.

Lemma shape_concat_nonempty {A : Type} (a : list (list A)) (h w : nat) :
  length a = h -> Forall (fun row => length row = w) a ->
  (concat a <> [] <-> (0 < h)%nat /\ (0 < w)%nat).
Proof.
  intros H1 H2; split.
  - intros Hne; split.
    + destruct a; [contradiction Hne; reflexivity | simpl in H1; lia].
    + destruct w; [|lia].
      contradiction Hne; clear H1 Hne.
      induction H2 as [|r a Hr _ IH]; simpl; [reflexivity|].
      apply length_zero_iff_nil in Hr; rewrite Hr, IH; reflexivity.
  - intros [Hh Hw] E.
    destruct a as [|r a]; [simpl in H1; lia|].
    inversion H2; subst.
    destruct r; [simpl in *; lia | discriminate].
Qed.

Section Perlin.

Context {np : NumPy}.

Lemma perlin2d_scale_nonpos (width height : Z) (scale : Q) (seed : Z) (tileable : bool) :
  scale <= 0 ->
  perlin2d width height scale seed tileable = Err (ValueError "scale must be > 0").
Proof.
  intros H; unfold perlin2d.
  apply Qle_bool_iff in H; rewrite H; reflexivity.
Qed.

Lemma lattice_tileable_shape (rng width height : Z) (scale : Q)
  (grid : list (list (Q * Q))) (lat : lattice) :
  lattice_tileable rng width height scale = Ok (grid, lat) ->
  (0 <= width)%Z /\ (0 <= height)%Z /\
  length grid = Z.to_nat height /\ Forall (fun row => length row = Z.to_nat width) grid /\
  forall ix iy, exists g, grad_at lat ix iy = Ok g.
Proof.
  unfold lattice_tileable; intros H.
  apply bind_Ok in H as (gw & Hgw & H).
  apply bind_Ok in H as (gh & Hgh & H).
  apply bind_Ok in H as (xs & Hxs & H).
  apply bind_Ok in H as (ys & Hys & H).
  inversion H; subst; clear H.
  apply linspace_Ok_length in Hxs as [Hw Lx].
  apply linspace_Ok_length in Hys as [Hh Ly].
  destruct (meshgrid_shape xs ys) as [S1 S2].
  repeat split; try assumption; try congruence.
  - rewrite <- Lx; exact S2.
  - intros ix iy; cbn [grad_at].
    apply grad_at_tileable_total; eapply tile_cells_ge_1; eassumption.
Qed.

Lemma lattice_bbox_shape (rng width height : Z) (scale : Q)
  (grid : list (list (Q * Q))) (lat : lattice) :
  lattice_bbox rng width height scale = Ok (grid, lat) ->
  (0 <= width)%Z /\ (0 <= height)%Z /\
  length grid = Z.to_nat height /\ Forall (fun row => length row = Z.to_nat width) grid.
Proof.
  unfold lattice_bbox; intros H.
  apply bind_Ok in H as (xstop & _ & H).
  apply bind_Ok in H as (xs & Hxs & H).
  apply bind_Ok in H as (ystop & _ & H).
  apply bind_Ok in H as (ys & Hys & H).
  apply bind_Ok in H as ([[[gx_min gx_max] gy_min] gy_max] & _ & H).
  inversion H; subst; clear H.
  apply linspace_Ok_length in Hxs as [Hw Lx].
  apply linspace_Ok_length in Hys as [Hh Ly].
  destruct (meshgrid_shape xs ys) as [S1 S2].
  repeat split; try assumption; try congruence.
  rewrite <- Lx; exact S2.
Qed.

Lemma noise_at_total (grad : Z -> Z -> result (Q * Q)) (p : Q * Q) :
  (forall c, In c (corners p) -> exists g, grad (fst c) (snd c) = Ok g) ->
  exists v, noise_at grad p = Ok v.
Proof.
  intros H; destruct p as [x y]; unfold noise_at.
  destruct (H (Qfloor x, Qfloor y)) as ([a1 b1] & E1); [simpl; auto|].
  destruct (H ((Qfloor x + 1)%Z, Qfloor y)) as ([a2 b2] & E2); [simpl; auto|].
  destruct (H (Qfloor x, (Qfloor y + 1)%Z)) as ([a3 b3] & E3); [simpl; auto|].
  destruct (H ((Qfloor x + 1)%Z, (Qfloor y + 1)%Z)) as ([a4 b4] & E4); [simpl; auto 6|].
  cbn [fst snd] in *; rewrite E1, E2, E3, E4; cbn [bind]; eauto.
Qed.

Lemma mapM2d_total {A B : Type} (g : A -> result B) (a : list (list A)) :
  (forall row x, In row a -> In x row -> exists v, g x = Ok v) ->
  exists b, mapM (mapM g) a = Ok b.
Proof.
  intros H; apply mapM_total, Forall_forall; intros row Hrow.
  apply mapM_total, Forall_forall; intros x Hx; eauto.
Qed.

(** The pieces a successful call went through. *)
Lemma perlin2d_Ok_inv (width height : Z) (scale : Q) (seed : Z) (tileable : bool)
  (f : field) :
  perlin2d width height scale seed tileable = Ok f ->
  0 < scale /\ (0 <= seed)%Z /\ (1 <= width)%Z /\ (1 <= height)%Z /\
  exists raw mn mx,
    length raw = Z.to_nat height /\
    Forall (fun row => length row = Z.to_nat width) raw /\
    qmin (concat raw) = Ok mn /\ qmax (concat raw) = Ok mx /\
    f = map2d (fun v => r32 (div64 (sub64 v mn) (add64 (sub64 mx mn) eps64))) raw.
Proof.
  unfold perlin2d; intros H.
  destruct (Qle_bool scale 0) eqn:Es; [discriminate|].
  assert (Hs : 0 < scale).
  { apply Qnot_le_lt; intros C; apply Qle_bool_iff in C; congruence. }
  apply bind_Ok in H as (rng & Hrng & H).
  assert (Hseed : (0 <= seed)%Z).
  { unfold default_rng in Hrng; destruct (seed <? 0)%Z eqn:E; [discriminate|].
    apply Z.ltb_ge in E; exact E. }
  apply bind_Ok in H as ([grid lat] & Hlat & H).
  apply bind_Ok in H as (raw & Hraw & H).
  assert (S : (0 <= width)%Z /\ (0 <= height)%Z /\ length grid = Z.to_nat height /\
              Forall (fun row => length row = Z.to_nat width) grid).
  { destruct tileable.
    - apply lattice_tileable_shape in Hlat; tauto.
    - apply lattice_bbox_shape in Hlat; tauto. }
  destruct S as (Hw & Hh & S1 & S2).
  destruct (mapM2d_shape _ _ _ _ _ Hraw S1 S2) as [R1 R2].
  unfold normalize in H.
  apply bind_Ok in H as (mn & Hmn & H).
  apply bind_Ok in H as (mx & Hmx & H).
  inversion H; subst f; clear H.
  assert (Hne : concat raw <> []).
  { intros E; rewrite E in Hmn; discriminate. }
  apply (shape_concat_nonempty _ _ _ R1 R2) in Hne.
  repeat split; try assumption; try lia.
  exists raw, mn, mx; repeat split; assumption.
Qed.

Lemma perlin2d_total (width height : Z) (scale : Q) (seed : Z) (tileable : bool) :
  (1 <= width)%Z -> (1 <= height)%Z -> 0 < scale -> (0 <= seed)%Z ->
  exists f, perlin2d width height scale seed tileable = Ok f.
Proof.
  intros Hw Hh Hs Hseed; unfold perlin2d.
  replace (Qle_bool scale 0) with false.
  2:{ symmetry; apply not_true_is_false; intros C; apply Qle_bool_iff in C; lra. }
  unfold default_rng.
  replace (seed <? 0)%Z with false by (symmetry; apply Z.ltb_ge; lia).
  cbn [bind].
  assert (L : exists grid lat,
    (if tileable then lattice_tileable seed width height scale
     else lattice_bbox seed width height scale) = Ok (grid, lat) /\
    length grid = Z.to_nat height /\
    Forall (fun row => length row = Z.to_nat width) grid /\
    forall row p, In row grid -> In p row -> exists v, noise_at (grad_at lat) p = Ok v).
  { destruct tileable.
    - destruct (lattice_tileable_total seed width height scale) as (xs & ys & E);
        [lia | lia | exact Hs |].
      do 2 eexists; split; [exact E|].
      apply lattice_tileable_shape in E as (_ & _ & S1 & S2 & T).
      repeat split; try assumption.
      intros row p _ _; apply noise_at_total; intros c _; apply T.
    - destruct (lattice_bbox_total seed width height scale Hw Hh Hs)
        as (xs & ys & gx_min & gx_max & gy_min & gy_max & Lx & Ly & Hb & E).
      do 2 eexists; split; [exact E|].
      destruct (meshgrid_shape xs ys) as [S1 S2].
      split; [congruence|]; split; [rewrite <- Lx; exact S2|].
      intros row p Hrow Hp; apply noise_at_total; intros c Hc; cbn [grad_at].
      destruct (bbox_corner_bounds _ _ _ _ _ Hb row p c Hrow Hp Hc) as [B1 B2].
      unfold grad_at_bbox; rewrite grads_in_range; eauto. }
  destruct L as (grid & lat & -> & S1 & S2 & T); cbn [bind].
  destruct (mapM2d_total (noise_at (grad_at lat)) grid T) as (raw & Hraw).
  rewrite Hraw; cbn [bind].
  destruct (mapM2d_shape _ _ _ _ _ Hraw S1 S2) as [R1 R2].
  assert (Hne : concat raw <> []).
  { apply (shape_concat_nonempty _ _ _ R1 R2); lia. }
  unfold normalize, qmin, qmax.
  destruct (reduce_total Qmin "minimum" _ Hne) as (mn & ->).
  destruct (reduce_total Qmax "maximum" _ Hne) as (mx & ->).
  cbn [bind]; eauto.
Qed.

Lemma perlin2d_shape (width height : Z) (scale : Q) (seed : Z) (tileable : bool)
  (f : field) :
  perlin2d width height scale seed tileable = Ok f ->
  shape_is f (Z.to_nat height) (Z.to_nat width).
Proof.
  intros H; apply perlin2d_Ok_inv in H
    as (_ & _ & _ & _ & raw & mn & mx & R1 & R2 & _ & _ & ->).
  apply map2d_shape; assumption.
Qed.

(** Nothing in perlin2d is checked for overflow: its outcome is a field or
    an exception. *)
Ltac finite_step :=
  first [ discriminate
        | apply bind_finite; [|intros ?]
        | apply mapM_finite; intros ?
        | match goal with
          | |- (if ?b then _ else _) <> NonFinite => destruct b
          | |- (match ?x with _ => _ end) <> NonFinite => destruct x
          end ].

Lemma grads_finite (rng gh gw gj gi : Z) : grads rng gh gw gj gi <> NonFinite.
Proof. unfold grads, np_index; repeat finite_step. Qed.

Lemma noise_at_finite (grad : Z -> Z -> result (Q * Q)) (p : Q * Q) :
  (forall ix iy, grad ix iy <> NonFinite) -> noise_at grad p <> NonFinite.
Proof.
  intros H; destruct p as [x y]; unfold noise_at.
  apply bind_finite; [apply H|]; intros [a1 b1].
  apply bind_finite; [apply H|]; intros [a2 b2].
  apply bind_finite; [apply H|]; intros [a3 b3].
  apply bind_finite; [apply H|]; intros [a4 b4].
  discriminate.
Qed.

Lemma lattice_finite (rng width height : Z) (scale : Q) (tileable : bool) :
  (if tileable then lattice_tileable rng width height scale
   else lattice_bbox rng width height scale) <> NonFinite.
Proof.
  destruct tileable.
  - unfold lattice_tileable, tile_cells, py_div, linspace; repeat finite_step.
  - unfold lattice_bbox, bbox, zmin, zmax, reduce, py_div, linspace; repeat finite_step.
Qed.

Lemma lattice_grad_finite (rng width height : Z) (scale : Q) (tileable : bool)
  (grid : list (list (Q * Q))) (lat : lattice) :
  (if tileable then lattice_tileable rng width height scale
   else lattice_bbox rng width height scale) = Ok (grid, lat) ->
  forall ix iy, grad_at lat ix iy <> NonFinite.
Proof.
  intros H ix iy; destruct tileable.
  - unfold lattice_tileable in H.
    apply bind_Ok in H as (gw & _ & H).
    apply bind_Ok in H as (gh & _ & H).
    apply bind_Ok in H as (xs & _ & H).
    apply bind_Ok in H as (ys & _ & H).
    inversion H; subst; apply grads_finite.
  - unfold lattice_bbox in H.
    apply bind_Ok in H as (xstop & _ & H).
    apply bind_Ok in H as (xs & _ & H).
    apply bind_Ok in H as (ystop & _ & H).
    apply bind_Ok in H as (ys & _ & H).
    apply bind_Ok in H as ([[[gx_min gx_max] gy_min] gy_max] & _ & H).
    inversion H; subst; apply grads_finite.
Qed.

Lemma perlin2d_finite (width height : Z) (scale : Q) (seed : Z) (tileable : bool) :
  perlin2d width height scale seed tileable <> NonFinite.
Proof.
  unfold perlin2d.
  destruct (Qle_bool scale 0); [discriminate|].
  apply bind_finite; [unfold default_rng; repeat finite_step|]; intros rng.
  pose proof (lattice_finite rng width height scale tileable) as L.
  destruct (if tileable then lattice_tileable rng width height scale
            else lattice_bbox rng width height scale) as [[grid lat]|e|] eqn:El;
    cbn [bind]; [|discriminate|contradiction L; reflexivity].
  apply bind_finite.
  - apply mapM_finite; intros row; apply mapM_finite; intros p.
    apply noise_at_finite, (lattice_grad_finite _ _ _ _ _ _ _ El).
  - intros raw; unfold normalize, qmin, qmax, reduce; repeat finite_step.
Qed.

(** A bad dimension ends in an exception too, raised by an array operation
    on the way. *)
Lemma perlin2d_bad_dimension (width height : Z) (scale : Q) (seed : Z) (tileable : bool) :
  (width <= 0)%Z \/ (height <= 0)%Z ->
  exists e, perlin2d width height scale seed tileable = Err e.
Proof.
  intros H.
  destruct (perlin2d width height scale seed tileable) as [f|e|] eqn:E; [|eauto|].
  - apply perlin2d_Ok_inv in E; lia.
  - contradiction (perlin2d_finite _ _ _ _ _ E).
Qed.

End Perlin.

(** * Range of perlin2d and fbm *)

Lemma fbm_Ok_inv {np : NumPy} (width height : Z) (base_scale : Q) (octaves : Z)
  (lacunarity gain : Q) (seed : Z) (tileable : bool) (f : field) :
  fbm width height base_scale octaves lacunarity gain seed tileable = Ok f ->
  exists st,
    fbm_loop width height base_scale octaves lacunarity gain seed tileable = Ok st /\
    f = map2d clip01 (map2d (fun t => div32 t (fbm_divisor st)) (total st)).
Proof.
  unfold fbm; intros H.
  apply bind_Ok in H as (st & Hst & H).
  apply bind_Ok in H as (u & _ & H); inversion H; eauto.
Qed.


Section Range.

Context {np : NumPy} {ieee : IEEE np}.

#[local] Existing Instance r64_Proper.
#[local] Existing Instance r32_Proper.

Lemma eps64_fixed : r64 eps64 == eps64.
Proof. unfold eps64; apply (rnd_idem _ r64_rounding). Qed.

Lemma normalized_range (mn mx v : Q) :
  mn <= v <= mx ->
  in01 (r32 (div64 (sub64 v mn) (add64 (sub64 mx mn) eps64))).
Proof.
  intros [Hlo Hhi]; unfold div64, sub64, add64.
  set (a := r64 (v - mn)); set (b := r64 (mx - mn)); set (c := r64 (b + eps64)).
  pose proof eps64_pos as He.
  assert (Ha : 0 <= a).
  { unfold a; rewrite <- (r64_int 0 0) by (try reflexivity; simpl; lia).
    apply r64_mono; lra. }
  assert (Hab : a <= b) by (apply r64_mono; lra).
  assert (Hbc : b <= c).
  { assert (Eb : r64 b == b) by (unfold b; apply (rnd_idem _ r64_rounding)).
    apply Qle_trans with (r64 b); [rewrite Eb; apply Qle_refl|].
    unfold c; apply r64_mono; lra. }
  assert (Hc : 0 < c).
  { apply Qlt_le_trans with eps64; [exact He|].
    apply Qle_trans with (r64 eps64); [rewrite eps64_fixed; apply Qle_refl|].
    unfold c; apply r64_mono; lra. }
  apply r32_unit_interval, r64_unit_interval; split.
  - apply Qle_shift_div_l; [exact Hc | lra].
  - apply Qle_shift_div_r; [exact Hc | lra].
Qed.

Lemma normalized_fixed (x : Q) : r32 (r32 x) == r32 x.
Proof. apply (rnd_idem _ r32_rounding). Qed.

(** Every pixel perlin2d returns lies in [0, 1] and is a float32 number. *)
Lemma perlin2d_range (width height : Z) (scale : Q) (seed : Z) (tileable : bool)
  (f : field) :
  perlin2d width height scale seed tileable = Ok f ->
  all_px (fun v => in01 v /\ r32 v == v) f.
Proof.
  intros H; apply perlin2d_Ok_inv in H
    as (_ & _ & _ & _ & raw & mn & mx & _ & _ & Hmn & Hmx & ->).
  apply map2d_all; intros v Hv; split.
  - apply normalized_range; split; [eapply qmin_le | eapply qmax_ge]; eassumption.
  - apply normalized_fixed.
Qed.

End Range.

(** * fbm *)

Lemma foldM_app {A S : Type} (f : S -> A -> result S) (l1 l2 : list A) (s : S) :
  foldM f (l1 ++ l2) s = (s' <- foldM f l1 s ;; foldM f l2 s').
Proof.
  revert s; induction l1 as [|a l1 IH]; intros s; simpl; [reflexivity|].
  destruct (f s a) as [s'|e|]; simpl; [apply IH | reflexivity | reflexivity].
Qed.

Lemma range_head (n : Z) : (1 <= n)%Z -> exists l, range n = 0%Z :: l.
Proof.
  intros H; unfold range.
  destruct (Z.to_nat n) as [|k] eqn:E; [lia|].
  simpl; eauto.
Qed.

Lemma range_one : range 1 = [0%Z].
Proof. reflexivity. Qed.


Lemma zip_with_repeat {A B C : Type} (g : A -> B -> C) (a : A) (b : list B) :
  zip_with g (repeat a (length b)) b = map (g a) b.
Proof. induction b as [|y b IH]; simpl; [reflexivity | rewrite IH; reflexivity]. Qed.

Lemma zip_with2d_zeros {A B C : Type} (g : A -> B -> C) (a : A) (b : list (list B))
  (h w : nat) :
  length b = h -> Forall (fun row => length row = w) b ->
  zip_with2d g (repeat (repeat a w) h) b = map2d (g a) b.
Proof.
  intros <- Hb; unfold zip_with2d, map2d.
  induction Hb as [|row b Hrow _ IH]; simpl; [reflexivity|].
  rewrite IH, <- Hrow, zip_with_repeat; reflexivity.
Qed.

Lemma repeat_shape {A : Type} (a : A) (h w : nat) :
  length (repeat (repeat a w) h) = h /\
  Forall (fun row => length row = w) (repeat (repeat a w) h).
Proof.
  split; [apply repeat_length|].
  apply Forall_forall; intros row Hrow.
  apply repeat_spec in Hrow; subst; apply repeat_length.
Qed.

Lemma map2d_map2d {A B C : Type} (g : B -> C) (k : A -> B) (a : list (list A)) :
  map2d g (map2d k a) = map2d (fun x => g (k x)) a.
Proof.
  unfold map2d; rewrite map_map; apply map_ext; intros row; apply map_map.
Qed.

Lemma In_concat_repeat {A : Type} (a x : A) (h w : nat) :
  In x (concat (repeat (repeat a w) h)) -> x = a.
Proof.
  intros H; apply in_concat in H as (row & Hrow & Hx).
  apply repeat_spec in Hrow; subst row; apply repeat_spec in Hx; exact Hx.
Qed.

Lemma field_eq_map2d (g : Q -> Q) (f : field) :
  (forall v, In v (concat f) -> g v == v) -> field_eq (map2d g f) f.
Proof.
  unfold field_eq, map2d; induction f as [|row f IH]; simpl; intros H; constructor.
  - assert (Hr : forall v, In v row -> g v == v) by (intros v Hv; apply H, in_or_app; auto).
    clear H IH; induction row as [|v row IH]; simpl; constructor.
    + apply Hr; simpl; auto.
    + apply IH; intros u Hu; apply Hr; simpl; auto.
  - apply IH; intros v Hv; apply H, in_or_app; auto.
Qed.

Lemma all_px_In (P : Q -> Prop) (f : field) (v : Q) :
  all_px P f -> In v (concat f) -> P v.
Proof.
  intros H Hv; apply in_concat in Hv as (row & Hrow & Hv).
  unfold all_px in H; rewrite Forall_forall in H.
  specialize (H row Hrow); rewrite Forall_forall in H; auto.
Qed.

Lemma Qdiv_one (x : Q) : x / 1 == x.
Proof. unfold Qdiv; change (/ 1) with 1; apply Qmult_1_r. Qed.

Lemma clip01_comp (x y : Q) : x == y -> clip01 x == clip01 y.
Proof.
  intros E; unfold clip01.
  destruct (Q.max_spec x 0) as [[H1 E1]|[H1 E1]];
  destruct (Q.max_spec y 0) as [[H2 E2]|[H2 E2]];
  destruct (Q.min_spec (Qmax x 0) 1) as [[H3 E3]|[H3 E3]];
  destruct (Q.min_spec (Qmax y 0) 1) as [[H4 E4]|[H4 E4]]; lra.
Qed.

Lemma px_repeat (h w j c : nat) : px (repeat (repeat 0 w) h) j c = 0.
Proof.
  unfold px.
  destruct (Nat.lt_ge_cases j h) as [Hj|Hj].
  - rewrite (nth_indep _ [] (repeat 0 w)) by (rewrite repeat_length; exact Hj).
    rewrite nth_repeat; apply nth_repeat.
  - rewrite (nth_overflow (repeat (repeat 0 w) h)) by (rewrite repeat_length; exact Hj).
    destruct c; reflexivity.
Qed.

Lemma px_map2d (g : Q -> Q) (f : field) (h w j c : nat) :
  length f = h -> Forall (fun row => length row = w) f ->
  (j < h)%nat -> (c < w)%nat ->
  px (map2d g f) j c = g (px f j c).
Proof.
  intros H1 H2 Hj Hc; unfold px, map2d.
  rewrite (nth_map_lt _ _ _ _ []) by lia.
  apply nth_map_lt.
  rewrite (Forall_nth_lt _ _ _ _ H2) by lia; exact Hc.
Qed.

Lemma px_zip_with2d (g : Q -> Q -> Q) (a b : field) (h w j c : nat) :
  length a = h -> Forall (fun row => length row = w) a ->
  length b = h -> Forall (fun row => length row = w) b ->
  (j < h)%nat -> (c < w)%nat ->
  px (zip_with2d g a b) j c = g (px a j c) (px b j c).
Proof.
  intros A1 A2 B1 B2 Hj Hc; unfold px, zip_with2d.
  rewrite (nth_zip_with _ _ _ _ [] [] []) by lia.
  apply nth_zip_with.
  - rewrite (Forall_nth_lt _ _ _ _ A2) by lia; exact Hc.
  - rewrite (Forall_nth_lt _ _ _ _ B2) by lia; exact Hc.
Qed.

Lemma zip_with2d_shape {A B C : Type} (g : A -> B -> C)
  (a : list (list A)) (b : list (list B)) (h w : nat) :
  length a = h -> Forall (fun row => length row = w) a ->
  length b = h -> Forall (fun row => length row = w) b ->
  length (zip_with2d g a b) = h /\
  Forall (fun row => length row = w) (zip_with2d g a b).
Proof.
  intros A1 A2 B1 B2; unfold zip_with2d; split.
  - rewrite zip_with_length; congruence.
  - subst h; revert b B1 B2; induction A2 as [|ra a Hra _ IH]; intros [|rb b] B1 B2;
      simpl in *; try discriminate; constructor.
    + inversion B2; subst; rewrite zip_with_length; congruence.
    + apply IH; [lia | inversion B2; assumption].
Qed.

Lemma zip_with_all {A B C : Type} (P : A -> Prop) (R : B -> Prop) (S : C -> Prop)
  (g : A -> B -> C) (a : list A) (b : list B) :
  (forall x y, P x -> R y -> S (g x y)) ->
  Forall P a -> Forall R b -> Forall S (zip_with g a b).
Proof.
  intros H Ha; revert b; induction Ha as [|x a Hx _ IH]; intros [|y b] Hb; simpl;
    try constructor.
  - inversion Hb; subst; apply H; assumption.
  - inversion Hb; subst; apply IH; assumption.
Qed.

Lemma zip_with2d_all (P R S : Q -> Prop) (g : Q -> Q -> Q) (a b : field) :
  (forall x y, P x -> R y -> S (g x y)) ->
  all_px P a -> all_px R b -> all_px S (zip_with2d g a b).
Proof.
  intros H; unfold all_px, zip_with2d.
  apply (zip_with_all (Forall P) (Forall R) (Forall S)).
  intros ra rb; apply zip_with_all, H.
Qed.

Lemma all_px_map2d (P S : Q -> Prop) (g : Q -> Q) (a : field) :
  (forall x, P x -> S (g x)) -> all_px P a -> all_px S (map2d g a).
Proof.
  intros H Ha; unfold all_px, map2d in *.
  apply Forall_map; eapply Forall_impl; [|exact Ha].
  intros row Hrow; apply Forall_map; eapply Forall_impl; [|exact Hrow].
  intros x; apply H.
Qed.

Lemma all_px_repeat (P : Q -> Prop) (a : Q) (h w : nat) :
  P a -> all_px P (repeat (repeat a w) h).
Proof.
  intros H; unfold all_px; apply Forall_forall; intros row Hrow.
  apply repeat_spec in Hrow; subst row.
  apply Forall_forall; intros x Hx; apply repeat_spec in Hx; subst; exact H.
Qed.

Lemma weighted_sum_ext {np : NumPy} (g g' : nat -> Q) (gain : Q) (k : nat) :
  (forall i, (i < k)%nat -> g i = g' i) -> weighted_sum g gain k = weighted_sum g' gain k.
Proof.
  induction k as [|k IH]; simpl; intros H; [reflexivity|].
  rewrite IH, (H k) by (intros; auto with arith); reflexivity.
Qed.


Section Fbm.

Context {np : NumPy}.

Lemma np_zeros_Ok (height width : Z) :
  (0 <= height)%Z -> (0 <= width)%Z ->
  np_zeros height width = Ok (repeat (repeat 0 (Z.to_nat width)) (Z.to_nat height)).
Proof.
  intros Hh Hw; unfold np_zeros.
  replace ((height <? 0) || (width <? 0))%Z with false; [reflexivity|].
  symmetry; apply orb_false_iff; split; apply Z.ltb_ge; assumption.
Qed.

Lemma np_zeros_negative (height width : Z) :
  (height < 0)%Z \/ (width < 0)%Z -> exists e, np_zeros height width = Err e.
Proof.
  intros H; unfold np_zeros.
  replace ((height <? 0) || (width <? 0))%Z with true; [eauto|].
  symmetry; apply orb_true_iff; destruct H; [left | right]; apply Z.ltb_lt; assumption.
Qed.


(** With no octave the loop body never runs. *)
Lemma fbm_loop_no_octaves (width height : Z) (base_scale : Q) (octaves : Z)
  (lacunarity gain : Q) (seed : Z) (tileable : bool) :
  (octaves < 1)%Z -> (0 <= height)%Z -> (0 <= width)%Z ->
  fbm_loop width height base_scale octaves lacunarity gain seed tileable =
  Ok {| total := repeat (repeat 0 (Z.to_nat width)) (Z.to_nat height);
        amp := 1; amp_sum := 0; scale := base_scale |}.
Proof.
  intros Ho Hh Hw; unfold fbm_loop.
  rewrite (np_zeros_Ok _ _ Hh Hw), range_nonpos by lia; reflexivity.
Qed.

(** An exception of the first octave is the exception of [fbm]. *)
Lemma fbm_first_octave_Err (width height : Z) (base_scale : Q) (octaves : Z)
  (lacunarity gain : Q) (seed : Z) (tileable : bool) (e : exn) :
  (1 <= octaves)%Z -> (0 <= height)%Z -> (0 <= width)%Z ->
  perlin2d width height base_scale seed tileable = Err e ->
  fbm width height base_scale octaves lacunarity gain seed tileable = Err e.
Proof.
  intros Ho Hh Hw He; unfold fbm, fbm_loop.
  rewrite (np_zeros_Ok _ _ Hh Hw); cbn [bind].
  destruct (range_head octaves Ho) as (l & ->).
  cbn [foldM]; unfold fbm_step at 1; cbn [scale].
  replace (seed + 1013 * 0)%Z with seed by lia.
  rewrite He; reflexivity.
Qed.

Lemma fbm_invalid_Err (width height : Z) (base_scale : Q) (octaves : Z)
  (lacunarity gain : Q) (seed : Z) (tileable : bool) :
  (1 <= octaves)%Z ->
  base_scale <= 0 \/ (width <= 0)%Z \/ (height <= 0)%Z ->
  exists e, fbm width height base_scale octaves lacunarity gain seed tileable = Err e.
Proof.
  intros Ho H.
  destruct (Z_lt_le_dec height 0) as [Hh|Hh].
  { destruct (np_zeros_negative height width (or_introl Hh)) as (e & He).
    exists e; unfold fbm, fbm_loop; rewrite He; reflexivity. }
  destruct (Z_lt_le_dec width 0) as [Hw|Hw].
  { destruct (np_zeros_negative height width (or_intror Hw)) as (e & He).
    exists e; unfold fbm, fbm_loop; rewrite He; reflexivity. }
  assert (E : exists e, perlin2d width height base_scale seed tileable = Err e).
  { destruct H as [H|H]; [|apply perlin2d_bad_dimension; lia].
    rewrite (perlin2d_scale_nonpos _ _ _ _ _ H); eauto. }
  destruct E as (e & He); exists e.
  apply fbm_first_octave_Err; assumption.
Qed.

Lemma py_div_Ok_inv (a b q : Q) : py_div a b = Ok q -> ~ b == 0 /\ q = div64 a b.
Proof.
  unfold py_div; destruct (Qeq_bool b 0) eqn:E; [discriminate|].
  intros H; inversion H; split; [apply Qeq_bool_neq, E | reflexivity].
Qed.

(** What a pass that ends went through, and what it leaves. *)
Lemma fbm_step_Ok_inv (width height : Z) (lacunarity gain : Q) (seed : Z)
  (tileable : bool) (st st' : fbm_state) (i : Z) :
  fbm_step width height lacunarity gain seed tileable st i = Ok st' ->
  exists n,
    perlin2d width height (scale st) (seed + 1013 * i) tileable = Ok n /\
    finite32 (r32 (amp st)) = true /\
    ~ lacunarity == 0 /\
    st' = {| total := zip_with2d add32 (total st)
                        (map2d (fun v => mul32 v (r32 (amp st))) n);
             amp := mul64 (amp st) gain;
             amp_sum := add64 (amp_sum st) (amp st);
             scale := div64 (scale st) lacunarity |}.
Proof.
  unfold fbm_step; intros H.
  apply bind_Ok in H as (n & Hn & H).
  apply bind_Ok in H as (u1 & H1 & H); apply check_Ok in H1.
  apply bind_Ok in H as (u2 & H2 & H).
  apply bind_Ok in H as (u3 & H3 & H).
  apply bind_Ok in H as (sc & Hsc & H).
  apply py_div_Ok_inv in Hsc as [Hl ->].
  inversion H; subst st'; exists n; auto.
Qed.

(** A pass whose octave is [n] and whose checks hold goes on to the
    division of the scale. *)
Lemma fbm_step_run (width height : Z) (lacunarity gain : Q) (seed : Z)
  (tileable : bool) (st : fbm_state) (i : Z) (n : field) :
  perlin2d width height (scale st) (seed + 1013 * i) tileable = Ok n ->
  finite32 (r32 (amp st)) = true ->
  forallb (forallb finite32)
    (zip_with2d add32 (total st) (map2d (fun v => mul32 v (r32 (amp st))) n)) = true ->
  finite64 (add64 (amp_sum st) (amp st)) = true ->
  fbm_step width height lacunarity gain seed tileable st i =
  (scale' <- py_div (scale st) lacunarity ;;
   Ok {| total := zip_with2d add32 (total st)
                    (map2d (fun v => mul32 v (r32 (amp st))) n);
         amp := mul64 (amp st) gain;
         amp_sum := add64 (amp_sum st) (amp st);
         scale := scale' |}).
Proof.
  intros Hn H1 H2 H3; unfold fbm_step.
  rewrite Hn; cbn [bind]; cbv zeta.
  rewrite H1; cbn [check bind].
  rewrite H2; cbn [check bind].
  rewrite H3; reflexivity.
Qed.

(** The state after [k] passes, in the words of the description: pass [i]
    evaluated perlin2d at [octave_scale i] with the seed [seed + 1013 * i]
    and got [ns i]; the amplitude is [octave_amp k], the sum of amplitudes
    [amp_total k], and each pixel of [total] the weighted sum of the
    octaves' pixels. *)
Lemma fbm_loop_octaves (width height : Z) (base_scale lacunarity gain : Q)
  (seed : Z) (tileable : bool) (k : nat) (st : fbm_state) :
  foldM (fbm_step width height lacunarity gain seed tileable) (range (Z.of_nat k))
    {| total := repeat (repeat 0 (Z.to_nat width)) (Z.to_nat height);
       amp := 1; amp_sum := 0; scale := base_scale |} = Ok st ->
  exists ns : list field,
    length ns = k /\
    (forall i, (i < k)%nat ->
       perlin2d width height (octave_scale base_scale lacunarity i)
         (seed + 1013 * Z.of_nat i) tileable = Ok (nth i ns [])) /\
    amp st = octave_amp gain k /\
    amp_sum st = amp_total gain k /\
    scale st = octave_scale base_scale lacunarity k /\
    shape_is (total st) (Z.to_nat height) (Z.to_nat width) /\
    forall j c, (j < Z.to_nat height)%nat -> (c < Z.to_nat width)%nat ->
      px (total st) j c = weighted_sum (fun i => px (nth i ns []) j c) gain k.
Proof.
  revert st; induction k as [|k IH]; intros st H.
  - cbn [Z.of_nat range] in H; rewrite range_nonpos in H by lia.
    inversion H; subst st; clear H; cbn [total amp amp_sum scale].
    exists []; split; [reflexivity|]; split; [intros i Hi; lia|].
    split; [reflexivity|]; split; [reflexivity|]; split; [reflexivity|].
    split; [apply repeat_shape|].
    intros j c _ _; apply px_repeat.
  - rewrite range_snoc, foldM_app in H.
    apply bind_Ok in H as (st1 & H1 & H); cbn [foldM] in H.
    apply bind_Ok in H as (st2 & H2 & H); inversion H; subst st2; clear H.
    destruct (IH st1 H1) as (ns & L & Hoct & Ha & Hsum & Hsc & [T1 T2] & Hpx).
    apply fbm_step_Ok_inv in H2 as (n & Hn & _ & _ & ->).
    cbn [total amp amp_sum scale].
    destruct (perlin2d_shape _ _ _ _ _ _ Hn) as [N1 N2].
    destruct (map2d_shape (fun v => mul32 v (r32 (amp st1))) n _ _ N1 N2) as [M1 M2].
    exists (ns ++ [n]).
    split; [rewrite length_app; simpl; lia|].
    split; [|split; [|split; [|split; [|split]]]].
    + intros i Hi; destruct (Nat.eq_dec i k) as [->|Hne].
      * rewrite app_nth2, L, Nat.sub_diag by lia; cbn [nth].
        rewrite <- Hsc; exact Hn.
      * rewrite app_nth1 by lia; apply Hoct; lia.
    + rewrite Ha; reflexivity.
    + rewrite Hsum, Ha; reflexivity.
    + rewrite Hsc; reflexivity.
    + apply zip_with2d_shape; assumption.
    + intros j c Hj Hc.
      rewrite (px_zip_with2d _ _ _ _ _ _ _ T1 T2 M1 M2 Hj Hc).
      rewrite (px_map2d _ _ _ _ _ _ N1 N2 Hj Hc).
      rewrite (Hpx j c Hj Hc), Ha; cbn [weighted_sum].
      rewrite (weighted_sum_ext (fun i => px (nth i (ns ++ [n]) []) j c)
                 (fun i => px (nth i ns []) j c) gain k)
        by (intros i Hi; rewrite app_nth1 by lia; reflexivity).
      rewrite app_nth2, L, Nat.sub_diag by lia; reflexivity.
Qed.

End Fbm.

(** * Claims on perlin2d and fbm *)

Lemma max32_large : 16777216 <= max32.
Proof. unfold max32, Qle; vm_compute; discriminate. Qed.

Lemma max64_large : 16777216 <= max64.
Proof. unfold max64, Qle; vm_compute; discriminate. Qed.

Lemma finite32_between (x : Q) : - (16777216) <= x <= 16777216 -> finite32 x = true.
Proof.
  intros H; unfold finite32; apply Qle_bool_iff.
  apply Qle_trans with 16777216; [apply Qabs_Qle_condition, H | apply max32_large].
Qed.

Lemma finite64_between (x : Q) : - (16777216) <= x <= 16777216 -> finite64 x = true.
Proof.
  intros H; unfold finite64; apply Qle_bool_iff.
  apply Qle_trans with 16777216; [apply Qabs_Qle_condition, H | apply max64_large].
Qed.

Lemma all_finite32 (f : field) :
  all_px (fun t => - (16777216) <= t <= 16777216) f -> forallb (forallb finite32) f = true.
Proof.
  intros H; apply forallb_forall; intros row Hrow.
  apply forallb_forall; intros t Ht.
  unfold all_px in H; rewrite Forall_forall in H.
  specialize (H row Hrow); rewrite Forall_forall in H.
  apply finite32_between, H, Ht.
Qed.

Lemma mul_unit (v a : Q) : 0 <= v <= 1 -> -1 <= a <= 1 -> -1 <= v * a <= 1.
Proof. intros Hv Ha; nra. Qed.

Lemma mul_unit2 (a g : Q) : -1 <= a <= 1 -> -1 <= g <= 1 -> -1 <= a * g <= 1.
Proof. intros Ha Hg; nra. Qed.

Section Claims.

Context {np : NumPy} {ieee : IEEE np}.

#[local] Existing Instance r64_Proper.
#[local] Existing Instance r32_Proper.

Lemma r64_between (x : Q) (a b : Z) :
  (Z.abs a <= 16777216)%Z -> (Z.abs b <= 16777216)%Z ->
  inject_Z a <= x <= inject_Z b -> inject_Z a <= r64 x <= inject_Z b.
Proof.
  intros Ha Hb [H1 H2]; split.
  - apply Qle_trans with (r64 (inject_Z a)); [|apply r64_mono, H1].
    rewrite (r64_int _ a) by (try reflexivity; exact Ha); apply Qle_refl.
  - apply Qle_trans with (r64 (inject_Z b)); [apply r64_mono, H2|].
    rewrite (r64_int _ b) by (try reflexivity; exact Hb); apply Qle_refl.
Qed.

Lemma r32_between (x : Q) (a b : Z) :
  (Z.abs a <= 16777216)%Z -> (Z.abs b <= 16777216)%Z ->
  inject_Z a <= x <= inject_Z b -> inject_Z a <= r32 x <= inject_Z b.
Proof.
  intros Ha Hb [H1 H2]; split.
  - apply Qle_trans with (r32 (inject_Z a)); [|apply r32_mono, H1].
    rewrite (r32_int _ a) by (try reflexivity; exact Ha); apply Qle_refl.
  - apply Qle_trans with (r32 (inject_Z b)); [apply r32_mono, H2|].
    rewrite (r32_int _ b) by (try reflexivity; exact Hb); apply Qle_refl.
Qed.

Lemma eps64_unit : 0 < eps64 <= 1.
Proof.
  split; [apply eps64_pos|].
  unfold eps64; apply (r64_between _ 0 1); [simpl; lia | simpl; lia |].
  split; discriminate.
Qed.

(** The divisor is finite while the sum of amplitudes is below 2^24. *)
Lemma divisor_finite (st : fbm_state) (b : Z) :
  (0 <= b)%Z -> (b + 1 <= 16777216)%Z ->
  - inject_Z b <= amp_sum st <= inject_Z b ->
  finite32 (fbm_divisor st) = true.
Proof.
  intros Hb Hb1 Hs; pose proof eps64_unit as He.
  assert (B : inject_Z (- (b + 1)) <= r32 (add64 (amp_sum st) eps64) <= inject_Z (b + 1)).
  { apply r32_between, r64_between; try lia.
    rewrite inject_Z_opp, inject_Z_plus; change (inject_Z 1) with 1; lra. }
  apply finite32_between; unfold fbm_divisor.
  rewrite inject_Z_opp in B.
  assert (I : inject_Z (b + 1) <= 16777216).
  { change 16777216 with (inject_Z 16777216); rewrite <- Zle_Qle; lia. }
  lra.
Qed.

(** A pass from a state within bounds: its checks hold, and it goes on to
    the division of the scale with a state within the next bounds. *)
Lemma fbm_step_checked (width height : Z) (lacunarity gain : Q) (seed : Z)
  (tileable : bool) (st : fbm_state) (i : Z) (n : field) (b : Z) :
  perlin2d width height (scale st) (seed + 1013 * i) tileable = Ok n ->
  -1 <= gain <= 1 ->
  (0 <= b)%Z -> (b + 1 <= 16777216)%Z ->
  -1 <= amp st <= 1 ->
  all_px (fun t => - inject_Z b <= t <= inject_Z b) (total st) ->
  - inject_Z b <= amp_sum st <= inject_Z b ->
  fbm_step width height lacunarity gain seed tileable st i =
  (scale' <- py_div (scale st) lacunarity ;;
   Ok {| total := zip_with2d add32 (total st)
                    (map2d (fun v => mul32 v (r32 (amp st))) n);
         amp := mul64 (amp st) gain;
         amp_sum := add64 (amp_sum st) (amp st);
         scale := scale' |}) /\
  -1 <= mul64 (amp st) gain <= 1 /\
  all_px (fun t => - inject_Z (b + 1) <= t <= inject_Z (b + 1))
    (zip_with2d add32 (total st) (map2d (fun v => mul32 v (r32 (amp st))) n)) /\
  - inject_Z (b + 1) <= add64 (amp_sum st) (amp st) <= inject_Z (b + 1).
Proof.
  intros Hn Hg Hb Hb1 Ha Ht Hs.
  pose proof (perlin2d_range _ _ _ _ _ _ Hn) as Rn.
  assert (A32 : -1 <= r32 (amp st) <= 1).
  { apply (r32_between _ (-1) 1); [simpl; lia | simpl; lia | exact Ha]. }
  assert (I : inject_Z (b + 1) <= 16777216).
  { change 16777216 with (inject_Z 16777216); rewrite <- Zle_Qle; lia. }
  assert (Pr : all_px (fun p => -1 <= p <= 1)
                 (map2d (fun v => mul32 v (r32 (amp st))) n)).
  { apply (all_px_map2d (fun v => in01 v /\ r32 v == v)); [|exact Rn].
    intros v [Hv _]; unfold mul32.
    apply (r32_between _ (-1) 1); [simpl; lia | simpl; lia|].
    apply mul_unit; assumption. }
  assert (T' : all_px (fun t => - inject_Z (b + 1) <= t <= inject_Z (b + 1))
                 (zip_with2d add32 (total st)
                    (map2d (fun v => mul32 v (r32 (amp st))) n))).
  { apply (zip_with2d_all (fun t => - inject_Z b <= t <= inject_Z b)
             (fun p => -1 <= p <= 1)); [|exact Ht | exact Pr].
    intros t p Ht' Hp; unfold add32.
    rewrite <- inject_Z_opp; apply r32_between; try lia.
    rewrite inject_Z_opp, inject_Z_plus; change (inject_Z 1) with 1; lra. }
  assert (S' : - inject_Z (b + 1) <= add64 (amp_sum st) (amp st) <= inject_Z (b + 1)).
  { unfold add64; rewrite <- inject_Z_opp; apply r64_between; try lia.
    rewrite inject_Z_opp, inject_Z_plus; change (inject_Z 1) with 1; lra. }
  split; [|split; [|split; [exact T' | exact S']]].
  - apply (fbm_step_run _ _ _ _ _ _ _ _ n Hn).
    + apply finite32_between; lra.
    + apply all_finite32; eapply Forall_impl; [|exact T'].
      intros row Hrow; eapply Forall_impl; [|exact Hrow].
      intros t Ht'; cbv beta in Ht'; lra.
    + apply finite64_between; lra.
  - unfold mul64; apply (r64_between _ (-1) 1); [simpl; lia | simpl; lia|].
    apply mul_unit2; assumption.
Qed.

(** The loop runs to its end, within bounds, when the gain is in [-1, 1],
    the lacunarity is not 0 and the scale of every octave is 1 or more. *)
Lemma fbm_loop_returns (width height : Z) (base_scale lacunarity gain : Q)
  (seed : Z) (tileable : bool) (k : nat) :
  (1 <= width)%Z -> (1 <= height)%Z -> (0 <= seed)%Z ->
  ~ lacunarity == 0 -> -1 <= gain <= 1 -> (Z.of_nat k <= 16777216)%Z ->
  (forall i, (i < k)%nat -> 1 <= octave_scale base_scale lacunarity i) ->
  exists st,
    foldM (fbm_step width height lacunarity gain seed tileable) (range (Z.of_nat k))
      {| total := repeat (repeat 0 (Z.to_nat width)) (Z.to_nat height);
         amp := 1; amp_sum := 0; scale := base_scale |} = Ok st /\
    -1 <= amp st <= 1 /\
    all_px (fun t => - inject_Z (Z.of_nat k) <= t <= inject_Z (Z.of_nat k)) (total st) /\
    - inject_Z (Z.of_nat k) <= amp_sum st <= inject_Z (Z.of_nat k).
Proof.
  intros Hw Hh Hseed Hl Hg; induction k as [|k IH]; intros Hk Hsc.
  - eexists; split; [reflexivity|]; cbn [amp total amp_sum].
    change (inject_Z (Z.of_nat 0)) with 0.
    split; [lra|]; split; [|lra].
    apply all_px_repeat; lra.
  - destruct IH as (st & Hst & Ha & Ht & Hs);
      [lia | intros i Hi; apply Hsc; lia|].
    destruct (fbm_loop_octaves _ _ _ _ _ _ _ _ _ Hst) as (_ & _ & _ & _ & _ & Esc & _).
    assert (Hpos : 0 < scale st).
    { rewrite Esc; apply Qlt_le_trans with 1; [reflexivity | apply Hsc; lia]. }
    destruct (perlin2d_total width height (scale st) (seed + 1013 * Z.of_nat k) tileable)
      as (n & Hn); try assumption; try lia.
    destruct (fbm_step_checked width height lacunarity gain seed tileable st
                (Z.of_nat k) n (Z.of_nat k) Hn Hg)
      as (Hst' & Ha' & Ht' & Hs'); try assumption; try lia.
    rewrite (py_div_nonzero _ _ Hl) in Hst'; cbn [bind] in Hst'.
    eexists; rewrite range_snoc, foldM_app, Hst; cbn [bind foldM].
    rewrite Hst'; cbn [bind]; split; [reflexivity|].
    replace (Z.of_nat (S k)) with (Z.of_nat k + 1)%Z by lia.
    cbn [amp total amp_sum].
    split; [exact Ha'|]; split; [exact Ht' | exact Hs'].
Qed.

(** So does fbm, with fewer than 2^24 octaves. *)
Lemma fbm_returns (width height : Z) (base_scale : Q) (octaves : Z)
  (lacunarity gain : Q) (seed : Z) (tileable : bool) :
  (1 <= width)%Z -> (1 <= height)%Z -> (0 <= seed)%Z ->
  ~ lacunarity == 0 -> -1 <= gain <= 1 -> (octaves < 16777216)%Z ->
  (forall i, (Z.of_nat i < octaves)%Z -> 1 <= octave_scale base_scale lacunarity i) ->
  exists f, fbm width height base_scale octaves lacunarity gain seed tileable = Ok f.
Proof.
  intros Hw Hh Hseed Hl Hg Ho Hsc.
  destruct (fbm_loop_returns width height base_scale lacunarity gain seed tileable
              (Z.to_nat octaves)) as (st & Hst & _ & _ & Hs); try assumption; try lia.
  { intros i Hi; apply Hsc; lia. }
  unfold fbm, fbm_loop.
  rewrite np_zeros_Ok by lia; cbn [bind].
  replace (range octaves) with (range (Z.of_nat (Z.to_nat octaves)))
    by (unfold range; rewrite Nat2Z.id; reflexivity).
  rewrite Hst; cbn [bind].
  rewrite (divisor_finite st (Z.of_nat (Z.to_nat octaves))) by (try lia; exact Hs).
  cbn [check bind]; eauto.
Qed.

(** The first pass from the initial state, for an octave [n]. *)
Lemma fbm_first_step (width height : Z) (base_scale lacunarity gain : Q) (seed : Z)
  (tileable : bool) (n : field) :
  perlin2d width height base_scale seed tileable = Ok n ->
  fbm_step width height lacunarity gain seed tileable
    {| total := repeat (repeat 0 (Z.to_nat width)) (Z.to_nat height);
       amp := 1; amp_sum := 0; scale := base_scale |} 0 =
  (scale' <- py_div base_scale lacunarity ;;
   Ok {| total := map2d (fun v => add32 0 (mul32 v (r32 1))) n;
         amp := mul64 1 gain; amp_sum := add64 0 1; scale := scale' |}).
Proof.
  intros Hn.
  destruct (perlin2d_shape _ _ _ _ _ _ Hn) as [S1 S2].
  pose proof (perlin2d_range _ _ _ _ _ _ Hn) as Rn.
  destruct (map2d_shape (fun v => mul32 v (r32 1)) n _ _ S1 S2) as [T1 T2].
  assert (E1 : r32 1 == 1) by (apply (r32_int 1 1); [reflexivity | simpl; lia]).
  rewrite (fbm_step_run _ _ _ _ _ _ _ _ n); cbn [scale amp total amp_sum].
  - rewrite (zip_with2d_zeros add32 0 _ _ _ T1 T2), map2d_map2d; reflexivity.
  - replace (seed + 1013 * 0)%Z with seed by lia; exact Hn.
  - apply finite32_between; lra.
  - rewrite (zip_with2d_zeros add32 0 _ _ _ T1 T2), map2d_map2d.
    apply all_finite32.
    apply (all_px_map2d (fun v => in01 v /\ r32 v == v)); [|exact Rn].
    intros v [[V0 V1] _]; unfold add32, mul32.
    assert (B' : inject_Z 0 <= r32 (v * r32 1) <= inject_Z 1).
    { apply r32_between; [simpl; lia | simpl; lia|].
      rewrite E1, Qmult_1_r; exact (conj V0 V1). }
    assert (B : inject_Z 0 <= r32 (0 + r32 (v * r32 1)) <= inject_Z 1).
    { apply r32_between; [simpl; lia | simpl; lia|].
      change (inject_Z 0) with 0 in *; change (inject_Z 1) with 1 in *; lra. }
    change (inject_Z 0) with 0 in B; change (inject_Z 1) with 1 in B; lra.
  - apply finite64_between; unfold add64.
    rewrite (r64_int (0 + 1) 1) by (try reflexivity; simpl; lia).
    change (inject_Z 1) with 1; lra.
Qed.

(** A zero lacunarity stops the first pass at [scale /= lacunarity]. *)
Lemma fbm_zero_lacunarity (width height : Z) (base_scale : Q) (octaves : Z)
  (lacunarity gain : Q) (seed : Z) (tileable : bool) :
  (1 <= width)%Z -> (1 <= height)%Z -> 0 < base_scale -> (0 <= seed)%Z ->
  (1 <= octaves)%Z -> lacunarity == 0 ->
  fbm width height base_scale octaves lacunarity gain seed tileable
  = Err ZeroDivisionError.
Proof.
  intros Hw Hh Hs Hseed Ho Hl; unfold fbm, fbm_loop.
  rewrite np_zeros_Ok by lia; cbn [bind].
  destruct (range_head octaves Ho) as (l & ->); cbn [foldM].
  destruct (perlin2d_total width height base_scale seed tileable)
    as (n & Hn); try assumption.
  rewrite (fbm_first_step _ _ _ _ _ _ _ n Hn), (py_div_zero _ _ Hl); reflexivity.
Qed.

(** With no octave fbm returns the field of zeros. *)
Lemma fbm_no_octaves (width height : Z) (scale : Q) (octaves : Z)
  (lacunarity gain : Q) (seed : Z) (tileable : bool) :
  (octaves < 1)%Z -> (0 <= width)%Z -> (0 <= height)%Z ->
  exists f, fbm width height scale octaves lacunarity gain seed tileable = Ok f /\
            shape_is f (Z.to_nat height) (Z.to_nat width) /\
            all_px (fun v => v == 0) f.
Proof.
  intros Ho Hw Hh; unfold fbm.
  rewrite (fbm_loop_no_octaves _ _ _ _ _ _ _ _ Ho Hh Hw); cbn [bind].
  rewrite (divisor_finite _ 0)
    by (cbn [amp_sum]; try lia; change (inject_Z 0) with 0; lra).
  cbn [check bind total].
  eexists; split; [reflexivity|].
  destruct (repeat_shape 0 (Z.to_nat height) (Z.to_nat width)) as [S1 S2].
  rewrite map2d_map2d; split; [apply map2d_shape; assumption|].
  apply map2d_all; intros v Hv.
  apply In_concat_repeat in Hv; subst v.
  apply clip01_le_0; unfold div32.
  rewrite (r32_int (0 / _) 0); [apply Qle_refl | unfold Qdiv; apply Qmult_0_l | simpl; lia].
Qed.

(** C1, as amended.  A scale <= 0 is refused by perlin2d's guard with
    ValueError "scale must be > 0" whatever the other parameters; a width or
    height <= 0 is not guarded but ends in an exception as well; so fbm with
    at least one octave fails on each of them without returning a field.
    octaves < 1 is not refused: fbm then returns the all-zero field of the
    given size. *)
Theorem invalid_parameters (width height : Z) (scale : Q) (octaves : Z)
  (lacunarity gain : Q) (seed : Z) (tileable : bool) :
  (scale <= 0 ->
     perlin2d width height scale seed tileable = Err (ValueError "scale must be > 0")) /\
  ((width <= 0)%Z \/ (height <= 0)%Z ->
     exists e, perlin2d width height scale seed tileable = Err e) /\
  ((1 <= octaves)%Z -> scale <= 0 -> (0 <= width)%Z -> (0 <= height)%Z ->
     fbm width height scale octaves lacunarity gain seed tileable =
     Err (ValueError "scale must be > 0")) /\
  ((1 <= octaves)%Z -> scale <= 0 \/ (width <= 0)%Z \/ (height <= 0)%Z ->
     exists e, fbm width height scale octaves lacunarity gain seed tileable = Err e) /\
  ((octaves < 1)%Z -> (0 <= width)%Z -> (0 <= height)%Z ->
     exists f, fbm width height scale octaves lacunarity gain seed tileable = Ok f /\
               shape_is f (Z.to_nat height) (Z.to_nat width) /\
               all_px (fun v => v == 0) f).
Proof.
  split; [apply perlin2d_scale_nonpos|].
  split; [apply perlin2d_bad_dimension|].
  split.
  { intros Ho Hs Hw Hh; apply fbm_first_octave_Err; try assumption.
    apply perlin2d_scale_nonpos, Hs. }
  split; [apply fbm_invalid_Err|].
  apply fbm_no_octaves.
Qed.



(** The divisor of a one-octave fbm. *)
Lemma one_octave_divisor (st : fbm_state) :
  r32 (r64 (1 + eps64)) == 1 -> amp_sum st = add64 0 1 -> fbm_divisor st == 1.
Proof.
  intros Habs E; unfold fbm_divisor; rewrite E; unfold add64.
  rewrite (r64_int (0 + 1) 1) by (try reflexivity; simpl; lia); exact Habs.
Qed.

(** C2, as amended.  For width, height >= 1, base_scale > 0 and a
    lacunarity other than 0, fbm with octaves = 1 ends as the direct
    perlin2d call with scale = base_scale and the same seed does: in the
    same exception, or in a field with the same pixels.  (The sum of
    amplitudes is 1, and adding 1e-12 to it is lost when the divisor is
    brought to float32.) *)
Theorem single_octave_identity (width height : Z) (base_scale lacunarity gain : Q)
  (seed : Z) (tileable : bool) :
  r32 (r64 (1 + eps64)) == 1 ->
  (1 <= width)%Z -> (1 <= height)%Z -> 0 < base_scale -> ~ lacunarity == 0 ->
  outcome_eq (fbm width height base_scale 1 lacunarity gain seed tileable)
             (perlin2d width height base_scale seed tileable).
Proof.
  intros Habs Hw Hh Hs Hl.
  unfold fbm, fbm_loop.
  rewrite np_zeros_Ok by lia; cbn [bind].
  rewrite range_one; cbn [foldM].
  destruct (perlin2d width height base_scale seed tileable) as [n|e|] eqn:En.
  2:{ unfold fbm_step; cbn [scale].
      replace (seed + 1013 * 0)%Z with seed by lia; rewrite En; reflexivity. }
  2:{ contradiction (perlin2d_finite _ _ _ _ _ En). }
  rewrite (fbm_first_step _ _ _ _ _ _ _ n En), (py_div_nonzero _ _ Hl); cbn [bind].
  set (st := {| total := _; amp := _; amp_sum := _; scale := _ |}).
  assert (Ed : fbm_divisor st == 1) by (apply one_octave_divisor; [exact Habs | reflexivity]).
  assert (Fd : finite32 (fbm_divisor st) = true) by (apply finite32_between; lra).
  rewrite Fd; cbn [check bind outcome_eq]; unfold st; cbn [total].
  pose proof (perlin2d_range _ _ _ _ _ _ En) as Hn.
  rewrite !map2d_map2d.
  apply field_eq_map2d; intros v Hv.
  destruct (all_px_In _ _ _ Hn Hv) as [Rv Fv].
  fold st.
  assert (E1 : mul32 v (r32 1) == v).
  { unfold mul32; rewrite (r32_int 1 1) by (try reflexivity; simpl; lia).
    rewrite <- Fv at 2; apply r32_Proper; change (inject_Z 1) with 1; ring. }
  assert (E2 : add32 0 (mul32 v (r32 1)) == v).
  { unfold add32; rewrite E1, Qplus_0_l; exact Fv. }
  assert (E3 : div32 (add32 0 (mul32 v (r32 1))) (fbm_divisor st) == v).
  { unfold div32; rewrite E2, Ed, Qdiv_one; exact Fv. }
  rewrite (clip01_id _); [exact E3|].
  rewrite E3; exact Rv.
Qed.

End Claims.

(** * The octaves of fbm *)

Section Octaves.

Context {np : NumPy}.



End Octaves.


(** * Further properties of the code *)

(** ** perlin2d: when it returns, and what *)

Lemma foldM_Ok_invariant {A S : Type} (Inv : S -> Prop) (f : S -> A -> result S)
  (l : list A) (s s' : S) :
  (forall s a s', Inv s -> f s a = Ok s' -> Inv s') ->
  Inv s -> foldM f l s = Ok s' -> Inv s'.
Proof.
  intros Hstep; revert s; induction l as [|a l IH]; simpl; intros s Hs H.
  - inversion H; subst; exact Hs.
  - apply bind_Ok in H as (s1 & H1 & H); eapply IH; [|exact H].
    eapply Hstep; eassumption.
Qed.


Lemma Qmin_cases (x y : Q) : Qmin x y = x \/ Qmin x y = y.
Proof.
  unfold Qmin, GenericMinMax.gmin; destruct (x ?= y); auto.
Qed.

Lemma fold_left_Qmin_In (l : list Q) (a : Q) : In (fold_left Qmin l a) (a :: l).
Proof.
  revert a; induction l as [|b l IH]; intros a; simpl; [auto|].
  destruct (IH (Qmin a b)) as [E|H]; [|auto].
  rewrite <- E; destruct (Qmin_cases a b) as [-> | ->]; auto.
Qed.


Lemma qmin_In (l : list Q) (m : Q) : qmin l = Ok m -> In m l.
Proof.
  destruct l as [|a l]; simpl; intros H; inversion H; apply fold_left_Qmin_In.
Qed.

Section MorePerlin.

Context {np : NumPy}.


Lemma fbm_step_shape (width height : Z) (lacunarity gain : Q) (seed : Z)
  (tileable : bool) (st st' : fbm_state) (i : Z) :
  shape_is (total st) (Z.to_nat height) (Z.to_nat width) ->
  fbm_step width height lacunarity gain seed tileable st i = Ok st' ->
  shape_is (total st') (Z.to_nat height) (Z.to_nat width).
Proof.
  intros [T1 T2] H.
  apply fbm_step_Ok_inv in H as (n & Hn & _ & _ & ->); cbn [total].
  destruct (perlin2d_shape _ _ _ _ _ _ Hn) as [N1 N2].
  destruct (map2d_shape (fun v => mul32 v (r32 (amp st))) n _ _ N1 N2) as [M1 M2].
  apply zip_with2d_shape; assumption.
Qed.

(** X2.  Whatever the number of octaves, a field fbm returns has [height]
    rows of [width] pixels (and then neither dimension is negative). *)
Theorem fbm_shape (width height : Z) (base_scale : Q) (octaves : Z)
  (lacunarity gain : Q) (seed : Z) (tileable : bool) (f : field) :
  fbm width height base_scale octaves lacunarity gain seed tileable = Ok f ->
  (0 <= width)%Z /\ (0 <= height)%Z /\
  shape_is f (Z.to_nat height) (Z.to_nat width).
Proof.
  intros H; apply fbm_Ok_inv in H as (st & Hst & ->).
  unfold fbm_loop in Hst.
  apply bind_Ok in Hst as (z & Hz & Hst).
  assert (D : (0 <= height)%Z /\ (0 <= width)%Z).
  { unfold np_zeros in Hz.
    destruct ((height <? 0) || (width <? 0))%Z eqn:E; [discriminate|].
    apply orb_false_iff in E as [E1 E2]; apply Z.ltb_ge in E1, E2; auto. }
  destruct D as [Hh Hw]; rewrite (np_zeros_Ok _ _ Hh Hw) in Hz; inversion Hz; subst z.
  split; [exact Hw|]; split; [exact Hh|].
  assert (S : shape_is (total st) (Z.to_nat height) (Z.to_nat width)).
  { apply (foldM_Ok_invariant
             (fun s => shape_is (total s) (Z.to_nat height) (Z.to_nat width))
             _ _ _ _) with (3 := Hst).
    - intros s a s' Hs Hstep; eapply fbm_step_shape; eassumption.
    - exact (repeat_shape 0 (Z.to_nat height) (Z.to_nat width)). }
  destruct S as [S1 S2].
  rewrite map2d_map2d; apply map2d_shape; assumption.
Qed.

End MorePerlin.

(** ** Zero pixels, bad lacunarity, and the raw noise on the lattice *)

Lemma Qfloor_nonneg (x : Q) : 0 <= x -> (0 <= Qfloor x)%Z.
Proof. intros H; apply (Qfloor_resp_le 0 x H). Qed.

Lemma Qfloor_shift (x : Q) (n : Z) : Qfloor (x + inject_Z n) = (Qfloor x + n)%Z.
Proof.
  pose proof (Qfloor_le x) as F1; pose proof (Qlt_floor x) as F2.
  apply Qfloor_unique.
  - rewrite inject_Z_plus; lra.
  - rewrite !inject_Z_plus in *; lra.
Qed.

Section MoreRounded.

Context {np : NumPy} {ieee : IEEE np}.

#[local] Existing Instance r64_Proper.
#[local] Existing Instance r32_Proper.

Lemma r64_zero (x : Q) : x == 0 -> r64 x == 0.
Proof. intros E; apply (r64_int x 0); [exact E | simpl; lia]. Qed.

Lemma r32_zero (x : Q) : x == 0 -> r32 x == 0.
Proof. intros E; apply (r32_int x 0); [exact E | simpl; lia]. Qed.


Lemma r32_nonneg (x : Q) : 0 <= x -> 0 <= r32 x.
Proof.
  intros H; apply Qle_trans with (r32 0); [|apply r32_mono; exact H].
  rewrite (r32_zero 0); [apply Qle_refl | reflexivity].
Qed.




Lemma noise_at_unfold (grad : Z -> Z -> result (Q * Q)) (x y : Q) :
  noise_at grad (x, y) =
  (g00 <- grad (Qfloor x) (Qfloor y) ;;
   g10 <- grad (Qfloor x + 1)%Z (Qfloor y) ;;
   g01 <- grad (Qfloor x) (Qfloor y + 1)%Z ;;
   g11 <- grad (Qfloor x + 1)%Z (Qfloor y + 1)%Z ;;
   Ok (corner_mix g00 g10 g01 g11
         (sub64 x (inject_Z (Qfloor x))) (sub64 y (inject_Z (Qfloor y))))).
Proof.
  unfold noise_at.
  destruct (grad (Qfloor x) (Qfloor y)) as [[a1 b1]|e|]; cbn [bind]; [|reflexivity..].
  destruct (grad (Qfloor x + 1)%Z (Qfloor y)) as [[a2 b2]|e|]; cbn [bind]; [|reflexivity..].
  destruct (grad (Qfloor x) (Qfloor y + 1)%Z) as [[a3 b3]|e|]; cbn [bind]; [|reflexivity..].
  destruct (grad (Qfloor x + 1)%Z (Qfloor y + 1)%Z) as [[a4 b4]|e|]; cbn [bind];
    reflexivity.
Qed.

Lemma corner_mix_comp (g00 g10 g01 g11 : Q * Q) (sx sy sx' sy' : Q) :
  sx == sx' -> sy == sy' ->
  corner_mix g00 g10 g01 g11 sx sy == corner_mix g00 g10 g01 g11 sx' sy'.
Proof.
  intros Hx Hy; unfold corner_mix, lerp, fade, add64, sub64, mul64.
  rewrite Hx, Hy; reflexivity.
Qed.

Lemma corner_mix_zero (g00 g10 g01 g11 : Q * Q) (sx sy : Q) :
  sx == 0 -> sy == 0 -> corner_mix g00 g10 g01 g11 sx sy == 0.
Proof.
  intros Hx Hy.
  rewrite (corner_mix_comp g00 g10 g01 g11 sx sy 0 0 Hx Hy).
  unfold corner_mix.
  pose proof (fade_0 0 (Qeq_refl 0)) as F.
  set (n00 := add64 (mul64 (fst g00) 0) (mul64 (snd g00) 0)).
  assert (E00 : n00 == 0).
  { unfold n00, add64, mul64.
    rewrite (r64_zero (fst g00 * 0)), (r64_zero (snd g00 * 0)) by apply Qmult_0_r.
    apply r64_zero; reflexivity. }
  assert (L : forall a b, a == 0 -> lerp a b (fade 0) == 0).
  { intros a b Ha; unfold lerp, add64, mul64, sub64.
    rewrite F, (r64_zero (0 * _)) by apply Qmult_0_l.
    apply r64_zero; rewrite Ha; reflexivity. }
  apply L, L, E00.
Qed.

(** X5.  At a lattice point (a sample point with integer coordinates) the
    noise before normalisation is 0, whatever the gradients are. *)
Theorem noise_at_lattice_point (grad : Z -> Z -> result (Q * Q)) (x y v : Q) :
  x == inject_Z (Qfloor x) -> y == inject_Z (Qfloor y) ->
  noise_at grad (x, y) = Ok v -> v == 0.
Proof.
  intros Hx Hy H; rewrite noise_at_unfold in H.
  apply bind_Ok in H as (g00 & _ & H).
  apply bind_Ok in H as (g10 & _ & H).
  apply bind_Ok in H as (g01 & _ & H).
  apply bind_Ok in H as (g11 & _ & H).
  inversion H; subst v.
  apply corner_mix_zero; unfold sub64; apply r64_zero; lra.
Qed.

Lemma grad_at_tileable_shift (rng gw gh ix iy k l : Z) :
  grad_at_tileable rng gw gh (ix + k * gw) (iy + l * gh)
  = grad_at_tileable rng gw gh ix iy.
Proof. unfold grad_at_tileable; rewrite !Z_mod_plus_full; reflexivity. Qed.

(** X6.  In tileable mode the noise before normalisation is periodic:
    moving the sample point by [k] lattice widths and [l] lattice heights
    changes neither the outcome nor the value. *)
Theorem noise_at_tileable_periodic (rng gw gh k l : Z) (x y : Q) :
  (1 <= gw)%Z -> (1 <= gh)%Z ->
  value_eq
    (noise_at (grad_at_tileable rng gw gh)
       (x + inject_Z (k * gw), y + inject_Z (l * gh)))
    (noise_at (grad_at_tileable rng gw gh) (x, y)).
Proof.
  intros _ _; rewrite !noise_at_unfold, !Qfloor_shift.
  replace (Qfloor x + k * gw + 1)%Z with (Qfloor x + 1 + k * gw)%Z by lia.
  replace (Qfloor y + l * gh + 1)%Z with (Qfloor y + 1 + l * gh)%Z by lia.
  rewrite !grad_at_tileable_shift.
  destruct (grad_at_tileable rng gw gh (Qfloor x) (Qfloor y)) as [g00|e|];
    cbn [bind]; [|reflexivity | exact I].
  destruct (grad_at_tileable rng gw gh (Qfloor x + 1) (Qfloor y)) as [g10|e|];
    cbn [bind]; [|reflexivity | exact I].
  destruct (grad_at_tileable rng gw gh (Qfloor x) (Qfloor y + 1)) as [g01|e|];
    cbn [bind]; [|reflexivity | exact I].
  destruct (grad_at_tileable rng gw gh (Qfloor x + 1) (Qfloor y + 1)) as [g11|e|];
    cbn [bind value_eq]; [|reflexivity | exact I].
  apply corner_mix_comp; unfold sub64; apply r64_Proper;
    rewrite inject_Z_plus; ring.
Qed.

End MoreRounded.

(** ** fade in exact arithmetic *)

Section FadeExact.

Context {np : NumPy}.
Hypothesis E64 : exact r64.

Lemma exact_r64_Proper : Proper (Qeq ==> Qeq) r64.
Proof.
  intros x y H; apply Qeq_trans with x; [apply E64|].
  apply Qeq_trans with y; [exact H | apply Qeq_sym, E64].
Qed.

#[local] Existing Instance exact_r64_Proper.

Lemma fade_exact (t : Q) : fade t == t * t * t * (t * (t * 6 - 15) + 10).
Proof.
  pose proof E64 as E; unfold exact in E.
  unfold fade, mul64, add64, sub64.
  rewrite !E; reflexivity.
Qed.

Lemma fade_exact_increment (a b : Q) :
  fade b - fade a ==
  (b - a) * (30 * ((a * (1 - a) + (b - a) * (1 - 2 * a) / 2 - (b - a) * (b - a) / 3) *
                   (a * (1 - a) + (b - a) * (1 - 2 * a) / 2 - (b - a) * (b - a) / 3))
             + (5 # 2) * (((b - a) * (1 - 2 * a) - (b - a) * (b - a)) *
                          ((b - a) * (1 - 2 * a) - (b - a) * (b - a)))
             + (1 # 6) * (((b - a) * (b - a)) * ((b - a) * (b - a)))).
Proof. rewrite !fade_exact; field. Qed.

Lemma Qsquare_nonneg (x : Q) : 0 <= x * x.
Proof.
  destruct (Qlt_le_dec x 0) as [H|H].
  - setoid_replace (x * x) with ((- x) * (- x)) by ring.
    apply Qmult_le_0_compat; lra.
  - apply Qmult_le_0_compat; assumption.
Qed.

Lemma fade_exact_mono (a b : Q) : a <= b -> fade a <= fade b.
Proof.
  intros H.
  pose proof (fade_exact_increment a b) as D.
  set (X := a * (1 - a) + (b - a) * (1 - 2 * a) / 2 - (b - a) * (b - a) / 3) in D.
  set (Y := (b - a) * (1 - 2 * a) - (b - a) * (b - a)) in D.
  set (Z := (b - a) * (b - a)) in D.
  pose proof (Qsquare_nonneg X) as HX.
  pose proof (Qsquare_nonneg Y) as HY.
  pose proof (Qsquare_nonneg Z) as HZ.
  assert (P : 0 <= (b - a) * (30 * (X * X) + (5 # 2) * (Y * Y) + (1 # 6) * (Z * Z)))
    by (apply Qmult_le_0_compat; lra).
  lra.
Qed.

(** X7.  In exact arithmetic fade is the quintic 6t^5 - 15t^4 + 10t^3: it
    keeps 0 and 1, is symmetric about (1/2, 1/2), never decreases, and so
    maps [0, 1] into [0, 1]. *)
Theorem fade_smoothstep (t : Q) :
  fade t == 6 * t ^ 5 - 15 * t ^ 4 + 10 * t ^ 3 /\
  fade (1 - t) == 1 - fade t /\
  (forall u, t <= u -> fade t <= fade u) /\
  (0 <= t <= 1 -> 0 <= fade t <= 1).
Proof.
  split; [rewrite fade_exact; ring|].
  split; [rewrite !fade_exact; ring|].
  split; [intros u; apply fade_exact_mono|].
  intros [H0 H1].
  pose proof (fade_exact_mono 0 t H0) as L0.
  pose proof (fade_exact_mono t 1 H1) as L1.
  rewrite (fade_exact 0) in L0; rewrite (fade_exact 1) in L1.
  split; [|lra].
  apply Qle_trans with (0 * 0 * 0 * (0 * (0 * 6 - 15) + 10)); [|exact L0].
  apply Qle_lteq; right; ring.
Qed.

End FadeExact.

(** ** Inversion and the extremes of the threshold *)

Lemma count_on_map2d {A : Type} (g : A -> Z) (a : list (list A)) :
  count_on (map2d g a) = length (filter (fun v => Z.eqb 255 (g v)) (concat a)).
Proof.
  unfold count_on, map2d.
  rewrite <- concat_map.
  induction (concat a) as [|v l IH]; cbn [map filter]; [reflexivity|].
  destruct (Z.eqb 255 (g v)); cbn [length]; rewrite IH; reflexivity.
Qed.

Lemma invert_threshold_px {np : NumPy} (t v : Q) :
  invert_px (threshold_px t v) = if Qlt_le_dec (r32 t) v then 0%Z else 255%Z.
Proof. unfold invert_px, threshold_px; destruct (Qlt_le_dec (r32 t) v); reflexivity. Qed.

Lemma map2d_ext {A B : Type} (g k : A -> B) (a : list (list A)) :
  (forall x, g x = k x) -> map2d g a = map2d k a.
Proof. intros H; unfold map2d; apply map_ext; intros row; apply map_ext, H. Qed.

(** X8.  Inverting the thresholded image swaps black and white: a pixel
    above the threshold, brought to float32, becomes 0 and every other
    pixel 255; inverting twice gives the thresholded image back; and the
    white pixels of the image and of its inverse together are all the
    pixels. *)
Theorem invert_stage_threshold {np : NumPy} (n : field) (t : Q) :
  Forall2 (Forall2 (fun v b => (r32 t < v -> b = 0%Z) /\ (v <= r32 t -> b = 255%Z)))
    n (invert_stage (threshold_stage n t)) /\
  invert_stage (invert_stage (threshold_stage n t)) = threshold_stage n t /\
  (count_on (invert_stage (threshold_stage n t)) + count_on (threshold_stage n t))%nat
  = length (concat n).
Proof.
  unfold invert_stage, threshold_stage; rewrite !map2d_map2d.
  split; [|split].
  - unfold map2d.
    apply Forall2_map_same; intros row _.
    apply Forall2_map_same; intros v _.
    rewrite invert_threshold_px.
    destruct (Qlt_le_dec (r32 t) v) as [H|H]; split; intros H'; try reflexivity; lra.
  - apply map2d_ext; intros v.
    unfold invert_px, threshold_px; destruct (Qlt_le_dec (r32 t) v); reflexivity.
  - rewrite !count_on_map2d.
    induction (concat n) as [|v l IH]; [reflexivity|].
    cbn [filter concat length].
    destruct (threshold_px_cases t v) as [[_ E]|[_ E]]; rewrite E.
    + change (255 =? invert_px 255)%Z with false; change (255 =? 255)%Z with true.
      cbn [length]; lia.
    + change (255 =? invert_px 0)%Z with true; change (255 =? 0)%Z with false.
      cbn [length]; lia.
Qed.


(** ** The stages of main under the rounding laws *)

Lemma Qtrunc_nonneg (v : Q) : 0 <= v -> Qtrunc v = Qfloor v.
Proof. intros H; unfold Qtrunc; destruct (Qlt_le_dec v 0); [lra | reflexivity]. Qed.

Lemma in_meshgrid (xs ys : list Q) (p : Q * Q) :
  In p (concat (meshgrid xs ys)) <-> In (fst p) xs /\ In (snd p) ys.
Proof.
  unfold meshgrid; rewrite in_concat; split.
  - intros (row & Hrow & Hp).
    apply in_map_iff in Hrow as (y & <- & Hy).
    apply in_map_iff in Hp as (x & <- & Hx); auto.
  - intros [Hx Hy]; exists (map (fun x => (x, snd p)) xs); split.
    + apply in_map_iff; exists (snd p); auto.
    + apply in_map_iff; exists (fst p); split; [destruct p; reflexivity | exact Hx].
Qed.

Lemma pxz_map2d (g : Q -> Z) (f : field) (h w j c : nat) :
  length f = h -> Forall (fun row => length row = w) f ->
  (j < h)%nat -> (c < w)%nat ->
  pxz (map2d g f) j c = g (px f j c).
Proof.
  intros H1 H2 Hj Hc; unfold pxz, px, map2d.
  rewrite (nth_map_lt _ _ _ _ []) by lia.
  apply nth_map_lt.
  rewrite (Forall_nth_lt _ _ _ _ H2) by lia; exact Hc.
Qed.

Section MoreStages.

Context {np : NumPy} {ieee : IEEE np}.

#[local] Existing Instance r64_Proper.
#[local] Existing Instance r32_Proper.

Lemma fade_comp (t t' : Q) : t == t' -> fade t == fade t'.
Proof. intros E; unfold fade, mul64, add64, sub64; rewrite E; reflexivity. Qed.

Lemma ramp_mirror (n p x : Z) : ramp n p (n - 1 - x) == ramp n p x.
Proof.
  unfold ramp; replace (n - 1 - (n - 1 - x))%Z with x by lia.
  apply fade_comp, Q.min_comm.
Qed.

(** X10.  The falloff mask is mirror symmetric: reflecting a pixel about
    the horizontal or the vertical middle of the image does not change its
    factor. *)
Theorem falloff_mask_symmetric (h w p : Z) (j c : nat) :
  (0 < p)%Z -> (Z.of_nat j < h)%Z -> (Z.of_nat c < w)%Z ->
  px (falloff_mask h w p) (Z.to_nat (h - 1 - Z.of_nat j)) c
    == px (falloff_mask h w p) j c /\
  px (falloff_mask h w p) j (Z.to_nat (w - 1 - Z.of_nat c))
    == px (falloff_mask h w p) j c.
Proof.
  intros _ Hj Hc.
  rewrite !falloff_mask_px by lia.
  rewrite !Z2Nat.id by lia.
  unfold mul64; split; apply r32_Proper, r64_Proper.
  - rewrite ramp_mirror; reflexivity.
  - rewrite ramp_mirror; reflexivity.
Qed.

Lemma padding_stage_unfold (n : field) (h w : nat) (p : Z) :
  (0 < p)%Z -> shape_is n h w -> (0 < h)%nat ->
  padding_stage n p = zip_with2d mul32 n (falloff_mask (Z.of_nat h) (Z.of_nat w) p).
Proof.
  intros Hp [Hlen Hrows] Hh; unfold padding_stage.
  replace (p >? 0)%Z with true by (symmetry; apply Z.gtb_lt; lia).
  assert (Hw : length (hd [] n) = w).
  { destruct n as [|row n]; [simpl in Hlen; lia|]; inversion Hrows; assumption. }
  rewrite Hlen, Hw; reflexivity.
Qed.

Lemma padding_stage_shape (n : field) (h w : nat) (p : Z) :
  (0 < p)%Z -> shape_is n h w -> (0 < h)%nat -> shape_is (padding_stage n p) h w.
Proof.
  intros Hp Hn Hh; rewrite (padding_stage_unfold n h w p Hp Hn Hh).
  destruct Hn as [N1 N2].
  destruct (falloff_mask_shape (Z.of_nat h) (Z.of_nat w) p) as [M1 M2].
  rewrite !Nat2Z.id in *.
  apply zip_with2d_shape; assumption.
Qed.

Lemma padding_stage_px (n : field) (h w : nat) (p : Z) (j c : nat) :
  (0 < p)%Z -> shape_is n h w -> (j < h)%nat -> (c < w)%nat ->
  px (padding_stage n p) j c
  = mul32 (px n j c) (px (falloff_mask (Z.of_nat h) (Z.of_nat w) p) j c).
Proof.
  intros Hp Hn Hj Hc.
  rewrite (padding_stage_unfold n h w p Hp Hn) by lia.
  destruct Hn as [N1 N2].
  destruct (falloff_mask_shape (Z.of_nat h) (Z.of_nat w) p) as [M1 M2].
  rewrite !Nat2Z.id in *.
  apply (px_zip_with2d mul32 n _ h w); assumption.
Qed.

(** X11.  With a padding of one pixel or more and a threshold that is not
    negative, every pixel of the first and last row and column is 0 after
    the padding stage, and black after the threshold stage. *)
Theorem padded_border_off (n : field) (h w : nat) (p : Z) (t : Q) (j c : nat) :
  (0 < p)%Z -> 0 <= t -> shape_is n h w -> (j < h)%nat -> (c < w)%nat ->
  (j = 0 \/ j = h - 1 \/ c = 0 \/ c = w - 1)%nat ->
  px (padding_stage n p) j c == 0 /\
  pxz (threshold_stage (padding_stage n p) t) j c = 0%Z.
Proof.
  intros Hp Ht Hn Hj Hc Hb.
  assert (E : px (padding_stage n p) j c == 0).
  { rewrite (padding_stage_px n h w p j c) by assumption.
    rewrite falloff_mask_px by lia.
    unfold mul32, mul64; apply r32_zero.
    assert (M : r32 (r64 (ramp (Z.of_nat h) p (Z.of_nat j) *
                          ramp (Z.of_nat w) p (Z.of_nat c))) == 0).
    { apply r32_zero, r64_zero.
      destruct Hb as [Hb|[Hb|[Hb|Hb]]].
      - rewrite (ramp_border (Z.of_nat h) p (Z.of_nat j)) by (auto; left; lia).
        apply Qmult_0_l.
      - rewrite (ramp_border (Z.of_nat h) p (Z.of_nat j)) by (auto; right; lia).
        apply Qmult_0_l.
      - rewrite (ramp_border (Z.of_nat w) p (Z.of_nat c)) by (auto; left; lia).
        apply Qmult_0_r.
      - rewrite (ramp_border (Z.of_nat w) p (Z.of_nat c)) by (auto; right; lia).
        apply Qmult_0_r. }
    rewrite M; apply Qmult_0_r. }
  split; [exact E|].
  destruct (padding_stage_shape n h w p Hp Hn) as [S1 S2]; [lia|].
  unfold threshold_stage.
  rewrite (pxz_map2d _ _ h w) by assumption.
  pose proof (r32_nonneg t Ht) as Ht'.
  destruct (threshold_px_cases t (px (padding_stage n p) j c)) as [[H _]|[_ H]];
    [lra | exact H].
Qed.

(** *** The lattice of the other branch starts at the origin *)





(** *** The byte conversions of the smooth stage *)

Lemma r32_255 : r32 255 == 255.
Proof. apply (r32_int 255 255); [reflexivity | simpl; lia]. Qed.

Lemma scaled_range (v : Q) : 0 <= v <= 1 -> 0 <= mul32 v (r32 255) <= 255.
Proof.
  intros [H0 H1]; unfold mul32.
  assert (E : v * r32 255 == v * 255) by (rewrite r32_255; reflexivity).
  split.
  - rewrite <- (r32_zero 0 (Qeq_refl 0)); apply r32_mono; rewrite E; lra.
  - rewrite <- r32_255 at 2; apply r32_mono; rewrite E; lra.
Qed.

Lemma to_byte_floor (v : Q) :
  0 <= v <= 1 ->
  to_byte v = Some (Qfloor (mul32 v (r32 255))) /\
  (0 <= Qfloor (mul32 v (r32 255)) <= 255)%Z.
Proof.
  intros Hv; destruct (scaled_range v Hv) as [S0 S1].
  assert (B : (0 <= Qfloor (mul32 v (r32 255)) <= 255)%Z).
  { split; [apply Qfloor_nonneg, S0|].
    change 255%Z with (Qfloor (inject_Z 255)) at 2.
    - apply Qfloor_resp_le, S1. }
  split; [|exact B].
  unfold to_byte; rewrite (Qtrunc_nonneg _ S0).
  replace ((0 <=? _) && (_ <=? 255))%Z with true; [reflexivity|].
  symmetry; apply andb_true_iff; split; apply Z.leb_le; lia.
Qed.

(** X13.  The conversion of the smooth stage to bytes is defined on
    [0, 1], where it never decreases and sends 0 to 0 and 1 to 255. *)
Theorem to_byte_unit_interval (u v : Q) :
  0 <= u -> u <= v -> v <= 1 ->
  exists qu qv,
    to_byte u = Some qu /\ to_byte v = Some qv /\
    (0 <= qu <= qv)%Z /\ (qv <= 255)%Z /\
    (u == 0 -> qu = 0%Z) /\ (v == 1 -> qv = 255%Z).
Proof.
  intros H0 Huv H1.
  destruct (to_byte_floor u) as [Eu [Bu _]]; [lra|].
  destruct (to_byte_floor v) as [Ev [_ Bv]]; [lra|].
  exists (Qfloor (mul32 u (r32 255))), (Qfloor (mul32 v (r32 255))).
  split; [exact Eu|]; split; [exact Ev|].
  split; [split; [exact Bu|]|split; [exact Bv|split]].
  - apply Qfloor_resp_le; unfold mul32; apply r32_mono.
    rewrite r32_255; lra.
  - intros E; unfold mul32.
    rewrite (Qfloor_comp _ 0); [reflexivity|].
    apply r32_zero; rewrite E; apply Qmult_0_l.
  - intros E; unfold mul32.
    rewrite (Qfloor_comp _ (inject_Z 255)); [apply Qfloor_Z|].
    apply (r32_int _ 255); [|simpl; lia].
    rewrite E, r32_255; reflexivity.
Qed.

Lemma from_byte_mono (b b' : Z) :
  (0 <= b <= b')%Z -> (b' <= 255)%Z -> from_byte b <= from_byte b'.
Proof.
  intros Hb Hb'; unfold from_byte, div32; apply r32_mono.
  rewrite (r32_int (inject_Z b) b), (r32_int (inject_Z b') b'), r32_255
    by (try reflexivity; lia).
  apply Qmult_le_compat_r; [rewrite <- Zle_Qle; lia | discriminate].
Qed.

(** X14.  The conversion of the smooth stage back from bytes maps a byte
    into [0, 1], never decreases, and sends 0 to 0 and 255 to 1. *)
Theorem from_byte_unit_interval (b b' : Z) :
  (0 <= b)%Z -> (b <= b')%Z -> (b' <= 255)%Z ->
  0 <= from_byte b /\ from_byte b <= from_byte b' /\ from_byte b' <= 1 /\
  from_byte 0 == 0 /\ from_byte 255 == 1.
Proof.
  intros H0 Hbb H1.
  assert (Z0 : from_byte 0 == 0).
  { unfold from_byte, div32; apply r32_zero.
    rewrite (r32_zero (inject_Z 0)) by reflexivity; apply Qmult_0_l. }
  assert (Z1 : from_byte 255 == 1).
  { unfold from_byte, div32; apply (r32_int _ 1); [|simpl; lia].
    change (inject_Z 255) with 255; rewrite r32_255; reflexivity. }
  split; [|split; [|split; [|split; assumption]]].
  - rewrite <- Z0; apply from_byte_mono; lia.
  - apply from_byte_mono; lia.
  - rewrite <- Z1; apply from_byte_mono; lia.
Qed.

End MoreStages.

(** ** The loss of the byte conversions, in exact arithmetic *)

(** X15.  In exact arithmetic, converting a value of [0, 1] to a byte and
    back loses less than 1/255, and never gains. *)
Theorem byte_quantisation {np : NumPy} (v : Q) :
  exact r32 -> 0 <= v <= 1 ->
  exists q, to_byte v = Some q /\
            from_byte q <= v /\ v < from_byte q + (1 # 255).
Proof.
  intros E Hv; unfold exact in E.
  assert (M : mul32 v (r32 255) == v * 255)
    by (unfold mul32; rewrite (E (v * r32 255)), (E 255); reflexivity).
  assert (S0 : 0 <= mul32 v (r32 255)) by (rewrite M; lra).
  assert (B : (0 <= Qfloor (mul32 v (r32 255)) <= 255)%Z).
  { split; [apply Qfloor_nonneg, S0|].
    change 255%Z with (Qfloor (inject_Z 255)) at 2.
    - apply Qfloor_resp_le; rewrite M; change (inject_Z 255) with 255; lra. }
  exists (Qfloor (mul32 v (r32 255))); split.
  - unfold to_byte; rewrite (Qtrunc_nonneg _ S0).
    replace ((0 <=? _) && (_ <=? 255))%Z with true; [reflexivity|].
    symmetry; apply andb_true_iff; split; apply Z.leb_le; lia.
  - pose proof (Qfloor_le (mul32 v (r32 255))) as F1.
    pose proof (Qlt_floor (mul32 v (r32 255))) as F2.
    rewrite inject_Z_plus in F2; change (inject_Z 1) with 1 in F2.
    set (k := inject_Z (Qfloor (mul32 v (r32 255)))) in *.
    assert (D : forall q, from_byte q == inject_Z q / 255).
    { intros q; unfold from_byte, div32.
      rewrite (E (_ / _)), (E (inject_Z q)), (E 255); reflexivity. }
    rewrite (D (Qfloor (mul32 v (r32 255)))); fold k.
    rewrite M in F1, F2.
    assert (K : k / 255 * 255 == k) by (field; discriminate).
    split.
    + apply Qle_shift_div_r; [reflexivity | exact F1].
    + apply Qmult_lt_r with 255; [reflexivity|].
      rewrite Qmult_plus_distr_l, K.
      setoid_replace ((1 # 255) * 255) with 1 by reflexivity.
      exact F2.
Qed.

(** ** A scale of one pixel per cell *)

Lemma Forall2_In_r {A B : Type} (R : A -> B -> Prop) (l : list A) (l' : list B) (b : B) :
  Forall2 R l l' -> In b l' -> exists a, In a l /\ R a b.
Proof.
  induction 1 as [|x y l l' Hxy _ IH]; simpl; intros Hb; [contradiction|].
  destruct Hb as [<-|Hb]; [exists x; auto|].
  destruct (IH Hb) as (a & Ha & Hr); exists a; auto.
Qed.

Lemma mapM2d_In {A B : Type} (g : A -> result B) (a : list (list A))
  (b : list (list B)) (v : B) :
  mapM (mapM g) a = Ok b -> In v (concat b) -> exists x, In x (concat a) /\ g x = Ok v.
Proof.
  intros H Hv; apply in_concat in Hv as (row' & Hrow' & Hv).
  apply mapM_Ok_Forall2 in H.
  destruct (Forall2_In_r _ _ _ _ H Hrow') as (row & Hrow & Hr).
  apply mapM_Ok_Forall2 in Hr.
  destruct (Forall2_In_r _ _ _ _ Hr Hv) as (x & Hx & Hg).
  exists x; split; [apply in_concat; eauto | exact Hg].
Qed.

Section UnitScale.

Context {np : NumPy} {ieee : IEEE np}.

#[local] Existing Instance r64_Proper.
#[local] Existing Instance r32_Proper.

Lemma linspace_on_nodes (stop : Q) (num : Z) (xs : list Q) :
  stop == inject_Z num -> (1 <= num <= 16777216)%Z ->
  linspace stop num = Ok xs -> Forall on_node xs.
Proof.
  intros Es Hn H; unfold linspace in H.
  destruct (num <? 0)%Z; [discriminate|]; inversion H; subst xs; clear H.
  apply Forall_forall; intros x Hx.
  apply in_map_iff in Hx as (i & <- & Hi); apply In_range in Hi.
  assert (S : div64 stop (inject_Z num) == 1).
  { unfold div64; apply (r64_int _ 1); [|simpl; lia].
    rewrite Es; change (inject_Z 1) with 1; field.
    change 0 with (inject_Z 0); rewrite inject_Z_injective; lia. }
  assert (X : add64 (mul64 (inject_Z i) (div64 stop (inject_Z num))) 0 == inject_Z i).
  { unfold add64, mul64; apply r64_int; [|lia].
    rewrite (r64_int (inject_Z i * _) i); [ring | rewrite S; ring | lia]. }
  unfold on_node; rewrite (Qfloor_comp _ _ X), Qfloor_Z; exact X.
Qed.

Lemma div64_one (d : Z) : (Z.abs d <= 16777216)%Z -> div64 (inject_Z d) 1 == inject_Z d.
Proof. intros H; unfold div64; apply r64_int; [apply Qdiv_one | exact H]. Qed.

Lemma unit_scale_nodes (rng width height : Z) (tileable : bool)
  (grid : list (list (Q * Q))) (lat : lattice) (p : Q * Q) :
  (1 <= width <= 16777216)%Z -> (1 <= height <= 16777216)%Z ->
  (if tileable then lattice_tileable rng width height 1
   else lattice_bbox rng width height 1) = Ok (grid, lat) ->
  In p (concat grid) -> on_node (fst p) /\ on_node (snd p).
Proof.
  intros Hw Hh H Hp.
  assert (Dw : div64 (inject_Z width) 1 == inject_Z width) by (apply div64_one; lia).
  assert (Dh : div64 (inject_Z height) 1 == inject_Z height) by (apply div64_one; lia).
  assert (G : exists xs ys, grid = meshgrid xs ys /\ Forall on_node xs /\ Forall on_node ys).
  { destruct tileable.
    - unfold lattice_tileable in H.
      rewrite !tile_cells_pos in H by reflexivity; cbn [bind] in H.
      rewrite (py_round_of_Z _ _ Dw), (py_round_of_Z _ _ Dh) in H.
      rewrite !Z.max_r in H by lia.
      apply bind_Ok in H as (xs & Hxs & H).
      apply bind_Ok in H as (ys & Hys & H).
      inversion H; subst grid lat; clear H.
      exists xs, ys; split; [reflexivity|]; split.
      + apply (linspace_on_nodes _ _ _ (Qeq_refl _) Hw Hxs).
      + apply (linspace_on_nodes _ _ _ (Qeq_refl _) Hh Hys).
    - unfold lattice_bbox in H.
      rewrite !(py_div_pos _ 1) in H by reflexivity; cbn [bind] in H.
      apply bind_Ok in H as (xs & Hxs & H).
      apply bind_Ok in H as (ys & Hys & H).
      apply bind_Ok in H as ([[[gx_min gx_max] gy_min] gy_max] & _ & H).
      inversion H; subst grid lat; clear H.
      exists xs, ys; split; [reflexivity|]; split.
      + apply (linspace_on_nodes _ _ _ Dw Hw Hxs).
      + apply (linspace_on_nodes _ _ _ Dh Hh Hys). }
  destruct G as (xs & ys & -> & Fx & Fy).
  apply in_meshgrid in Hp as [Px Py].
  rewrite Forall_forall in Fx, Fy; auto.
Qed.

(** X16.  With scale = 1 every sample point is a lattice point: perlin2d
    returns the field that is 0 everywhere, for every seed and in both
    modes. *)
Theorem perlin2d_unit_scale (width height seed : Z) (tileable : bool) :
  (1 <= width <= 16777216)%Z -> (1 <= height <= 16777216)%Z -> (0 <= seed)%Z ->
  exists f, perlin2d width height 1 seed tileable = Ok f /\
            shape_is f (Z.to_nat height) (Z.to_nat width) /\
            all_px (fun v => v == 0) f.
Proof.
  intros Hw Hh Hseed.
  destruct (perlin2d_total width height 1 seed tileable) as (f & Hf);
    [lia | lia | reflexivity | exact Hseed |].
  exists f; split; [exact Hf|]; split; [exact (perlin2d_shape _ _ _ _ _ _ Hf)|].
  unfold perlin2d in Hf; cbn [Qle_bool Qnum Qden Z.mul Z.leb Z.compare] in Hf.
  change (Qle_bool 1 0) with false in Hf; cbv iota in Hf.
  apply bind_Ok in Hf as (rng & _ & Hf).
  apply bind_Ok in Hf as ([grid lat] & Hlat & Hf).
  apply bind_Ok in Hf as (raw & Hraw & Hf).
  assert (R : forall v, In v (concat raw) -> v == 0).
  { intros v Hv.
    destruct (mapM2d_In _ _ _ _ Hraw Hv) as ([x y] & Hp & Hn).
    destruct (unit_scale_nodes _ _ _ _ _ _ _ Hw Hh Hlat Hp) as [Nx Ny].
    unfold on_node in Nx, Ny; cbn [fst snd] in Nx, Ny.
    rewrite noise_at_unfold in Hn.
    apply bind_Ok in Hn as (g00 & _ & Hn).
    apply bind_Ok in Hn as (g10 & _ & Hn).
    apply bind_Ok in Hn as (g01 & _ & Hn).
    apply bind_Ok in Hn as (g11 & _ & Hn).
    inversion Hn; subst v.
    apply corner_mix_zero; unfold sub64; apply r64_zero; lra. }
  unfold normalize in Hf.
  apply bind_Ok in Hf as (mn & Hmn & Hf).
  apply bind_Ok in Hf as (mx & _ & Hf).
  inversion Hf; subst f; clear Hf.
  pose proof (R mn (qmin_In _ _ Hmn)) as Emn.
  apply map2d_all; intros v Hv.
  apply r32_zero; unfold div64; apply r64_zero.
  unfold sub64 at 1; rewrite (r64_zero (v - mn)) by (rewrite (R v Hv), Emn; ring).
  unfold Qdiv; apply Qmult_0_l.
Qed.

End UnitScale.

(** ** float32 fields, and the inside of the padding mask *)

Section Float32.

Context {np : NumPy} {ieee : IEEE np}.

#[local] Existing Instance r64_Proper.
#[local] Existing Instance r32_Proper.

Lemma r32_idem (x : Q) : r32 (r32 x) == r32 x.
Proof. apply (rnd_idem _ r32_rounding). Qed.

Lemma clip01_float32 (v : Q) : r32 v == v -> r32 (clip01 v) == clip01 v.
Proof.
  intros H; unfold clip01.
  assert (E0 : r32 0 == 0) by (apply r32_zero; reflexivity).
  assert (E1 : r32 1 == 1) by (apply (r32_int 1 1); [reflexivity | simpl; lia]).
  destruct (Q.max_spec v 0) as [[_ M]|[_ M]];
  destruct (Q.min_spec (Qmax v 0) 1) as [[_ N]|[_ N]];
    rewrite N; try exact E1; rewrite M; assumption.
Qed.

(** X17.  The fields perlin2d and fbm return are float32 arrays: every
    pixel is a number the float32 rounding leaves as it is. *)
Theorem noise_fields_float32 (width height : Z) (scale : Q) (octaves : Z)
  (lacunarity gain : Q) (seed : Z) (tileable : bool) :
  (forall f, perlin2d width height scale seed tileable = Ok f ->
             all_px (fun v => r32 v == v) f) /\
  (forall f, fbm width height scale octaves lacunarity gain seed tileable = Ok f ->
             all_px (fun v => r32 v == v) f).
Proof.
  split; intros f H.
  - apply perlin2d_Ok_inv in H as (_ & _ & _ & _ & raw & mn & mx & _ & _ & _ & _ & ->).
    apply map2d_all; intros v _; apply r32_idem.
  - apply fbm_Ok_inv in H as (st & _ & ->).
    rewrite map2d_map2d; apply map2d_all; intros v _.
    apply clip01_float32; unfold div32; apply r32_idem.
Qed.

(** X18.  Where the falloff mask is 1, that is [padding] pixels or more
    away from every edge, the padding stage leaves a pixel of a float32
    field as it is. *)
Theorem padding_keeps_interior (n : field) (h w : nat) (p : Z) (j c : nat) :
  (0 < p)%Z -> shape_is n h w ->
  (p <= Z.of_nat j <= Z.of_nat h - 1 - p)%Z ->
  (p <= Z.of_nat c <= Z.of_nat w - 1 - p)%Z ->
  r32 (px n j c) == px n j c ->
  px (padding_stage n p) j c == px n j c.
Proof.
  intros Hp Hn Hj Hc Hf.
  rewrite (padding_stage_px n h w p j c) by (try assumption; lia).
  rewrite falloff_mask_px by lia.
  assert (M : r32 (mul64 (ramp (Z.of_nat h) p (Z.of_nat j))
                         (ramp (Z.of_nat w) p (Z.of_nat c))) == 1).
  { unfold mul64; apply (r32_int _ 1); [|simpl; lia].
    apply (r64_int _ 1); [|simpl; lia].
    rewrite (ramp_inside (Z.of_nat h) p), (ramp_inside (Z.of_nat w) p) by auto.
    reflexivity. }
  unfold mul32; rewrite M, Qmult_1_r; exact Hf.
Qed.

End Float32.

(** * The claims on concrete inputs *)

(** C1, counterexample: with octaves = 0 (and every other parameter valid)
    fbm raises nothing and returns a 64 x 64 field of zeros. *)
Lemma fbm_zero_octaves_returns :
  exists f, @fbm ieee_np 64 64 16 0 2 (1 # 2) 7 false = Ok f /\
            shape_is f 64 64 /\ all_px (fun v => v == 0) f.
Proof.
  apply (@fbm_no_octaves ieee_np IEEE_ieee_np 64 64 16 0 2 (1 # 2) 7 false); lia.
Qed.

(** C1 on concrete parameters: scale = 0; width = 0; height = -1 with five
    octaves; no octave. *)
Lemma invalid_parameters_witness :
  @perlin2d ieee_np 64 64 0 7 false = Err (ValueError "scale must be > 0") /\
  (exists e, @perlin2d ieee_np 0 64 16 7 true = Err e) /\
  (exists e, @fbm ieee_np 64 (-1) 16 5 2 (1 # 2) 7 false = Err e) /\
  (exists f, @fbm ieee_np 4 3 16 0 2 (1 # 2) 7 false = Ok f /\
             shape_is f 3 4 /\ all_px (fun v => v == 0) f).
Proof.
  split; [|split; [|split]].
  - apply (proj1 (@invalid_parameters ieee_np IEEE_ieee_np 64 64 0 5 2 (1 # 2) 7 false)).
    apply Qle_refl.
  - apply (proj1 (proj2
      (@invalid_parameters ieee_np IEEE_ieee_np 0 64 16 5 2 (1 # 2) 7 true))).
    left; lia.
  - apply (proj1 (proj2 (proj2 (proj2
      (@invalid_parameters ieee_np IEEE_ieee_np 64 (-1) 16 5 2 (1 # 2) 7 false))))).
    + lia.
    + right; right; lia.
  - apply (proj2 (proj2 (proj2 (proj2
      (@invalid_parameters ieee_np IEEE_ieee_np 4 3 16 0 2 (1 # 2) 7 false))))); lia.
Defined.

(** C2, counterexample: with lacunarity = 0 the one-octave fbm raises
    ZeroDivisionError (at [scale /= lacunarity]) where perlin2d returns a
    field. *)
Lemma fbm_zero_lacunarity_raises :
  @fbm ieee_np 64 64 16 1 0 (1 # 2) 7 false = Err ZeroDivisionError /\
  (exists f, @perlin2d ieee_np 64 64 16 7 false = Ok f) /\
  ~ outcome_eq (@fbm ieee_np 64 64 16 1 0 (1 # 2) 7 false)
               (@perlin2d ieee_np 64 64 16 7 false).
Proof.
  assert (E1 : @fbm ieee_np 64 64 16 1 0 (1 # 2) 7 false = Err ZeroDivisionError)
    by (apply (@fbm_zero_lacunarity ieee_np IEEE_ieee_np); try lia; reflexivity).
  assert (E2 : exists f, @perlin2d ieee_np 64 64 16 7 false = Ok f)
    by (apply perlin2d_total; try lia; reflexivity).
  split; [exact E1|]; split; [exact E2|].
  destruct E2 as (f & E2); rewrite E1, E2; simpl; auto.
Qed.

(** C2 in IEEE arithmetic, for a 64 x 48 tileable field. *)
Lemma single_octave_identity_witness :
  outcome_eq (@fbm ieee_np 64 48 16 1 2 (1 # 2) 7 true)
             (@perlin2d ieee_np 64 48 16 7 true).
Proof.
  apply (@single_octave_identity ieee_np IEEE_ieee_np 64 48 16 2 (1 # 2) 7 true).
  - exact ieee_np_absorbs_eps.
  - lia.
  - lia.
  - reflexivity.
  - discriminate.
Defined.





(** C5 for width = 64, height = 32, scale = 16: a 4 x 2 lattice. *)
Lemma tileable_lookup_periodic_witness :
  (exists g, @grad_at_tileable exact_np 7 4 2 5 (-3) = Ok g) /\
  @grad_at_tileable exact_np 7 4 2 (5 + 9 * 4) (-3) = @grad_at_tileable exact_np 7 4 2 5 (-3) /\
  @grad_at_tileable exact_np 7 4 2 5 (-3 + 9 * 2) = @grad_at_tileable exact_np 7 4 2 5 (-3).
Proof.
  apply (@tileable_lookup_periodic exact_np 7 64 32 16 4 2 5 (-3) 9).
  - reflexivity.
  - reflexivity.
Defined.



(** C7, counterexample: as a float32 the threshold 0.55 is
    0.550000011920929; the pixel of that value is above 0.55, and the
    threshold stage maps it to 0. *)
Lemma threshold_rounds_up_to_pixel :
  11 # 20 < binary32 (11 # 20) /\
  @threshold_stage ieee_np [[binary32 (11 # 20)]] (11 # 20) = [[0%Z]].
Proof. split; vm_compute; reflexivity. Qed.

(** C7 in IEEE arithmetic, for the threshold 0.55 and the pixels 0.5 and
    0.6. *)
Lemma threshold_stage_binary_witness :
  Forall2 (Forall2 (fun v b =>
      (@r32 ieee_np (11 # 20) < v -> b = 255%Z) /\
      (v <= @r32 ieee_np (11 # 20) -> b = 0%Z) /\
      (v == @r32 ieee_np (11 # 20) -> b = 0%Z) /\
      (b = 0%Z \/ b = 255%Z) /\
      (@r32 ieee_np v == v -> (v <= 11 # 20 -> b = 0%Z) /\ (b = 255%Z -> 11 # 20 < v))))
    [[1 # 2; 3 # 5]] (@threshold_stage ieee_np [[1 # 2; 3 # 5]] (11 # 20)).
Proof.
  exact (@threshold_stage_binary ieee_np IEEE_ieee_np [[1 # 2; 3 # 5]] (11 # 20)).
Defined.

(** C8 for thresholds 0.55 <= 0.6 on a 2 x 2 field. *)
Lemma threshold_monotone_witness :
  (count_on (@threshold_stage ieee_np [[1 # 2; 3 # 5]; [11 # 20; 0%Q]] (3 # 5))
   <= count_on (@threshold_stage ieee_np [[1 # 2; 3 # 5]; [11 # 20; 0%Q]] (11 # 20)))%nat.
Proof.
  apply (@threshold_monotone ieee_np IEEE_ieee_np); discriminate.
Defined.

(** Inside the padding zone the ramps have the shape of the fade curve:
    for an 8 x 10 field with padding 4, one pixel from the top the ramp is
    fade(1/4) = 53/512, two pixels from the left it is fade(1/2) = 1/2, and
    the mask there is 53/1024. *)
Lemma falloff_mask_inside_ramp :
  @ramp ieee_np 8 4 1 == 53 # 512 /\
  @ramp ieee_np 10 4 2 == 1 # 2 /\
  px (@falloff_mask ieee_np 8 10 4) 1 2 == 53 # 1024.
Proof. split; [|split]; vm_compute; reflexivity. Qed.

(** C9 in IEEE arithmetic, for an 8 x 10 field with padding 4, at a pixel
    one step from the top and two from the left. *)
Lemma falloff_mask_boundary_witness :
  let m := px (@falloff_mask ieee_np 8 10 4) 1 2 in
  let ty := clip01 (@div64 ieee_np (inject_Z (edge_distance 8 1)) (inject_Z 4)) in
  let tx := clip01 (@div64 ieee_np (inject_Z (edge_distance 10 2)) (inject_Z 4)) in
  m = @r32 ieee_np (@mul64 ieee_np (@ramp ieee_np 8 4 1) (@ramp ieee_np 10 4 2)) /\
  @ramp ieee_np 8 4 1 == @quintic64 ieee_np ty /\
  @ramp ieee_np 10 4 2 == @quintic64 ieee_np tx /\
  (exact (@r64 ieee_np) ->
     @ramp ieee_np 8 4 1
     == 6 * ty * ty * ty * ty * ty - 15 * ty * ty * ty * ty + 10 * ty * ty * ty /\
     @ramp ieee_np 10 4 2
     == 6 * tx * tx * tx * tx * tx - 15 * tx * tx * tx * tx + 10 * tx * tx * tx) /\
  m == @r32 ieee_np (@mul64 ieee_np (@quintic64 ieee_np ty) (@quintic64 ieee_np tx)) /\
  ((2 = 0 \/ 2 = 10 - 1 \/ 1 = 0 \/ 1 = 8 - 1)%Z -> m == 0) /\
  ((4 <= 2 <= 10 - 1 - 4 /\ 4 <= 1 <= 8 - 1 - 4)%Z -> m == 1) /\
  (forall n : field, shape_is n 8 10 ->
     px (@padding_stage ieee_np n 4) 1 2 = @mul32 ieee_np (px n 1 2) m).
Proof.
  apply (@falloff_mask_boundary ieee_np IEEE_ieee_np 8 10 4 1 2); lia.
Defined.


(** * Further properties on concrete inputs *)

(** Two octaves of a 4 x 3 field, at the scales 16 and 8. *)
Lemma fbm_two_octaves_returns (tileable : bool) :
  exists f, @fbm ieee_np 4 3 16 2 2 (1 # 2) 7 tileable = Ok f.
Proof.
  apply (@fbm_returns ieee_np IEEE_ieee_np);
    [lia | lia | lia | discriminate | split; discriminate | lia |].
  intros i Hi; destruct i as [|[|i]]; [| |lia]; vm_compute; discriminate.
Qed.


(** X2 in IEEE arithmetic, for two octaves of a 4 x 3 tileable field. *)
Lemma fbm_shape_witness :
  exists f, @fbm ieee_np 4 3 16 2 2 (1 # 2) 7 true = Ok f /\
            (0 <= 4)%Z /\ (0 <= 3)%Z /\ shape_is f 3 4.
Proof.
  destruct (fbm_two_octaves_returns true) as (f & Hf).
  exists f; split; [exact Hf|].
  exact (@fbm_shape ieee_np 4 3 16 2 2 (1 # 2) 7 true f Hf).
Defined.



(** X5 at the lattice point (3, 1) of a 4 x 2 tileable lattice. *)
Lemma noise_at_lattice_point_witness :
  exists v, @noise_at ieee_np (@grad_at_tileable ieee_np 7 4 2) (3, 1) = Ok v /\ v == 0.
Proof.
  destruct (@noise_at_total ieee_np (@grad_at_tileable ieee_np 7 4 2) (3, 1)) as (v & Hv).
  - intros c _; apply grad_at_tileable_total; lia.
  - exists v; split; [exact Hv|].
    apply (@noise_at_lattice_point ieee_np IEEE_ieee_np
             (@grad_at_tileable ieee_np 7 4 2) 3 1 v);
      [reflexivity | reflexivity | exact Hv].
Defined.

(** X6 in IEEE arithmetic: two periods to the right and one up on a 4 x 2
    lattice. *)
Lemma noise_at_tileable_periodic_witness :
  value_eq
    (@noise_at ieee_np (@grad_at_tileable ieee_np 7 4 2)
       ((1 # 3) + inject_Z (2 * 4), (1 # 2) + inject_Z (-1 * 2)))
    (@noise_at ieee_np (@grad_at_tileable ieee_np 7 4 2) (1 # 3, 1 # 2)).
Proof.
  apply (@noise_at_tileable_periodic ieee_np IEEE_ieee_np 7 4 2 2 (-1) (1 # 3) (1 # 2));
    lia.
Defined.

(** X7 at t = 1/4. *)
Lemma fade_smoothstep_witness :
  @fade exact_np (1 # 4) == 6 * (1 # 4) ^ 5 - 15 * (1 # 4) ^ 4 + 10 * (1 # 4) ^ 3 /\
  @fade exact_np (1 - (1 # 4)) == 1 - @fade exact_np (1 # 4) /\
  (forall u, 1 # 4 <= u -> @fade exact_np (1 # 4) <= @fade exact_np u) /\
  (0 <= 1 # 4 <= 1 -> 0 <= @fade exact_np (1 # 4) <= 1).
Proof.
  apply (@fade_smoothstep exact_np); intros x; reflexivity.
Defined.


(** X10 in IEEE arithmetic, for an 8 x 10 mask with padding 2. *)
Lemma falloff_mask_symmetric_witness :
  px (@falloff_mask ieee_np 8 10 2) (Z.to_nat (8 - 1 - Z.of_nat 1)) 3
    == px (@falloff_mask ieee_np 8 10 2) 1 3 /\
  px (@falloff_mask ieee_np 8 10 2) 1 (Z.to_nat (10 - 1 - Z.of_nat 3))
    == px (@falloff_mask ieee_np 8 10 2) 1 3.
Proof.
  apply (@falloff_mask_symmetric ieee_np IEEE_ieee_np 8 10 2 1 3); lia.
Defined.

(** X11 in IEEE arithmetic: a pixel of the first row of a 3 x 4 field,
    padding 1, threshold 0.55. *)
Lemma padded_border_off_witness :
  px (@padding_stage ieee_np
        [[1 # 2; 3 # 4; 1; 1 # 4]; [1; 1; 1; 1]; [0; 1 # 2; 1; 3 # 4]] 1) 0 2 == 0 /\
  pxz (@threshold_stage ieee_np
         (@padding_stage ieee_np
            [[1 # 2; 3 # 4; 1; 1 # 4]; [1; 1; 1; 1]; [0; 1 # 2; 1; 3 # 4]] 1)
         (11 # 20)) 0 2 = 0%Z.
Proof.
  apply (@padded_border_off ieee_np IEEE_ieee_np _ 3 4 1 (11 # 20) 0 2).
  - lia.
  - discriminate.
  - split; [reflexivity | repeat constructor].
  - lia.
  - lia.
  - left; reflexivity.
Defined.


(** X13 in IEEE arithmetic, for 0.25 and 0.75. *)
Lemma to_byte_unit_interval_witness :
  exists qu qv,
    @to_byte ieee_np (1 # 4) = Some qu /\ @to_byte ieee_np (3 # 4) = Some qv /\
    (0 <= qu <= qv)%Z /\ (qv <= 255)%Z /\
    ((1 # 4) == 0 -> qu = 0%Z) /\ ((3 # 4) == 1 -> qv = 255%Z).
Proof.
  apply (@to_byte_unit_interval ieee_np IEEE_ieee_np (1 # 4) (3 # 4)); discriminate.
Defined.

(** X14 in IEEE arithmetic, for the bytes 10 and 200. *)
Lemma from_byte_unit_interval_witness :
  0 <= @from_byte ieee_np 10 /\ @from_byte ieee_np 10 <= @from_byte ieee_np 200 /\
  @from_byte ieee_np 200 <= 1 /\
  @from_byte ieee_np 0 == 0 /\ @from_byte ieee_np 255 == 1.
Proof.
  apply (@from_byte_unit_interval ieee_np IEEE_ieee_np 10 200); lia.
Defined.

(** X15 for the value 0.55. *)
Lemma byte_quantisation_witness :
  exists q, @to_byte exact_np (11 # 20) = Some q /\
            @from_byte exact_np q <= 11 # 20 /\
            11 # 20 < @from_byte exact_np q + (1 # 255).
Proof.
  apply (@byte_quantisation exact_np (11 # 20)).
  - intros x; reflexivity.
  - split; discriminate.
Defined.

(** X16 in IEEE arithmetic, for a 64 x 48 tileable field. *)
Lemma perlin2d_unit_scale_witness :
  exists f, @perlin2d ieee_np 64 48 1 7 true = Ok f /\
            shape_is f 48 64 /\ all_px (fun v => v == 0) f.
Proof.
  apply (@perlin2d_unit_scale ieee_np IEEE_ieee_np 64 48 7 true); lia.
Defined.

(** X17 in IEEE arithmetic, for a 64 x 48 field of perlin2d. *)
Lemma noise_fields_float32_witness :
  exists f, @perlin2d ieee_np 64 48 16 7 false = Ok f /\
            all_px (fun v => @r32 ieee_np v == v) f.
Proof.
  destruct (@perlin2d_total ieee_np 64 48 16 7 false) as (f & Hf);
    [lia | lia | reflexivity | lia |].
  exists f; split; [exact Hf|].
  exact (proj1 (@noise_fields_float32 ieee_np IEEE_ieee_np 64 48 16 5 2 (1 # 2) 7 false)
           f Hf).
Defined.

(** X18 in IEEE arithmetic: the middle pixel of a 3 x 5 field, padding 1. *)
Lemma padding_keeps_interior_witness :
  px (@padding_stage ieee_np
        [[1 # 2; 3 # 4; 1; 1 # 4; 0]; [1; 1; 1 # 2; 1; 1]; [0; 1 # 2; 1; 3 # 4; 1]] 1) 1 2
  == 1 # 2.
Proof.
  apply (@padding_keeps_interior ieee_np IEEE_ieee_np
           [[1 # 2; 3 # 4; 1; 1 # 4; 0]; [1; 1; 1 # 2; 1; 1]; [0; 1 # 2; 1; 3 # 4; 1]]
           3 5 1 1 2).
  - lia.
  - split; [reflexivity | repeat constructor].
  - lia.
  - lia.
  - vm_compute; reflexivity.
Defined.
